(** * DigiCom: the signal-processing core of [DCpro3.ipynb]

    A shallow embedding of the text codec, the Hamming(7,4) coder and the
    BPSK / QPSK / 16-QAM mappers of the notebook, with the properties the
    specification states about them.

    Conventions of the embedding.
    - A numpy integer array is a [list Z]; the entries are whatever
      integers the caller put there, and a _bit sequence_ is such a list
      whose entries are all 0 or 1 ([is_bits]).
    - A Python [str] is the list of its code points ([list N]); a
      character is not limited to 8 bits.
    - A finite float is the rational it denotes ([Q]); the modulators
      only produce small integers and the demodulators only compare, so
      no rounding takes place on the paths modelled here.
    - A Python exception is [None] in an [option] result.
    - [hamming_decode] writes through a slice view into its argument, so
      its embedding threads the array as state.
    - The noise power of the channel is computed in binary64; there a
      float is one of the kernel's primitive floats, whose division and
      multiplication round as Python's do. The power function behind
      [**] belongs to the C library and is a parameter. *)

From Stdlib Require Import ZArith QArith Qabs Lqa Lia List Ascii String DecimalString.
From Stdlib Require Import Reals Lra Floats.
From stdpp Require Import base numbers option list gmap.

Local Open Scope Z_scope.

(** ** Python building blocks *)

Module Py.

(** [range(i, stop, step)] as the generator runs it: yield [i] while it is
    below [stop]. [fuel] bounds the number of items; [stop] is enough for
    a positive [step]. *)
Fixpoint range_from (fuel i stop step : nat) : list nat :=
  match fuel with
  | O => []
  | S fuel' =>
      if (i <? stop)%nat then i :: range_from fuel' (i + step) stop step else []
  end.

(** [range(0, stop, step)] *)
Definition range (stop step : nat) : list nat := range_from stop 0 stop step.

(** [l[i:j]]: slices clamp to the sequence, they never raise. *)
Definition slice {A} (l : list A) (i j : nat) : list A := take (j - i) (drop i l).

(** [l[i]] for an index the surrounding code keeps in range. *)
Definition item (l : list Z) (i : nat) : Z := nth i l 0.

(** [[l[i:i + k] for i in range(0, len(l), k)]] *)
Definition chunks {A} (k : nat) (l : list A) : list (list A) :=
  map (λ i, slice l i (i + k)) (range (length l) k).

End Py.

(** ** Bit sequences *)

Definition is_bit (b : Z) : bool := (b =? 0) || (b =? 1).
Definition is_bits (bits : list Z) : bool := forallb is_bit bits.

(** ** Text codec *)

(** [format(n, 'b')]: the binary digits of [n], most significant first. *)
Fixpoint pos_bin (p : positive) (acc : string) : string :=
  match p with
  | xH => String "1" acc
  | xO q => pos_bin q (String "0" acc)
  | xI q => pos_bin q (String "1" acc)
  end.

Definition format_b (n : N) : string :=
  match n with
  | N0 => "0"%string
  | Npos p => pos_bin p EmptyString
  end.

Fixpoint zeros (k : nat) : string :=
  match k with
  | O => EmptyString
  | S k' => String "0" (zeros k')
  end.

(** [format(n, '08b')]: zero-filled on the left up to width 8; a number
    that needs more than 8 digits keeps all of them. *)
Definition format_08b (n : N) : string :=
  let s := format_b n in
  String.append (zeros (8 - String.length s)) s.

(** [int(b)] for a digit character [b]. *)
Definition int_of_digit (b : ascii) : Z := Z.of_N (N_of_ascii b) - 48.

(** [ord(char)]: a character of a [str] is its code point. *)
Definition ord (char : N) : N := char.

(** [[int(b) for b in format(ord(char), '08b')]] *)
Definition char_bits (char : N) : list Z :=
  map int_of_digit (list_ascii_of_string (format_08b (ord char))).

(** [[int(b) for char in text for b in format(ord(char), '08b')]] *)
Definition text_to_bits (text : list N) : list Z :=
  flat_map char_bits text.

(** Every character of the text is below U+0100, the characters that
    [format(_, '08b')] renders in exactly 8 digits. *)
Definition is_latin1 (text : list N) : bool :=
  forallb (λ char, (char <? 256)%N) text.

(** [str(int(b))]: the decimal rendering of an integer. *)
Definition str_int (b : Z) : string := NilZero.string_of_int (Z.to_int b).

(** [''.join(parts)] *)
Definition join (parts : list string) : string :=
  fold_right String.append EmptyString parts.

Fixpoint digits2 (s : string) (acc : Z) : option Z :=
  match s with
  | EmptyString => Some acc
  | String c r =>
      if Ascii.eqb c "0" then digits2 r (2 * acc)
      else if Ascii.eqb c "1" then digits2 r (2 * acc + 1)
      else None
  end.

(** [int(s, 2)] on the strings that reach it here (decimal digits and
    minus signs): an optional sign and then one or more binary digits;
    anything else is a [ValueError]. *)
Definition int_base2 (s : string) : option Z :=
  match s with
  | EmptyString => None
  | String c r =>
      if Ascii.eqb c "-" then
        match r with EmptyString => None | _ => Z.opp <$> digits2 r 0 end
      else if Ascii.eqb c "+" then
        match r with EmptyString => None | _ => digits2 r 0 end
      else digits2 s 0
  end.

(** [chr(v)]: a [ValueError] outside [range(0x110000)]. *)
Definition chr (v : Z) : option N :=
  if (0 <=? v) && (v <? 1114112) then Some (Z.to_N v) else None.

(** [chr(int(''.join(str(int(b)) for b in byte), 2))] *)
Definition byte_char (byte : list Z) : option N :=
  int_base2 (join (map str_int byte)) ≫= chr.

Definition bits_to_text (bits : list Z) : option (list N) :=
  let bits := Py.slice bits 0 (length bits - length bits mod 8) in
  let chars := Py.chunks 8 bits in
  mapM byte_char chars.

(** What makes a character survive the codec, as a check that runs: it
    is rendered in 8 bits and [byte_char] reads it back. *)
Definition char_ok (char : N) : bool :=
  (length (char_bits char) =? 8)%nat
  && is_bits (char_bits char)
  && bool_decide (byte_char (char_bits char) = Some char).

(** ** Hamming(7,4) *)

(** The loop body of [hamming_encode] once [d] holds four entries. *)
Definition encode_group (d : list Z) : list Z :=
  match d with
  | [d1; d2; d3; d4] =>
      let p1 := Z.land (Z.lxor (Z.lxor d1 d2) d4) 1 in
      let p2 := Z.land (Z.lxor (Z.lxor d1 d3) d4) 1 in
      let p3 := Z.land (Z.lxor (Z.lxor d2 d3) d4) 1 in
      [p1; p2; d1; p3; d2; d3; d4]
  | _ => []
  end.

(** [while len(d) < 4: d = np.append(d, 0)] *)
Definition pad4 (d : list Z) : list Z := d ++ replicate (4 - length d) 0.

Definition hamming_encode (data_bits : list Z) : list Z :=
  flat_map (λ i, encode_group (pad4 (Py.slice data_bits i (i + 4))))
           (Py.range (length data_bits) 4).

(** [error_pos] of a full block. *)
Definition error_pos (block : list Z) : Z :=
  match block with
  | [p1; p2; d1; p3; d2; d3; d4] =>
      let s1 := Z.land (Z.lxor (Z.lxor (Z.lxor p1 d1) d2) d4) 1 in
      let s2 := Z.land (Z.lxor (Z.lxor (Z.lxor p2 d1) d3) d4) 1 in
      let s3 := Z.land (Z.lxor (Z.lxor (Z.lxor p3 d2) d3) d4) 1 in
      s1 + s2 * 2 + s3 * 4
  | _ => 0
  end.

(** One iteration of the loop of [hamming_decode] at index [i]. [block] is
    a view of [arr]: [block[k]] is [arr[i + k]], and the correction
    [block[error_pos - 1] ^= 1] writes into [arr]. The result is the
    array after the iteration and the bits appended to [decoded]. *)
Definition decode_at (arr : list Z) (i : nat) : list Z * list Z :=
  let block := Py.slice arr i (i + 7) in
  if (length block <? 7)%nat then (arr, [])
  else
    let e := error_pos block in
    let arr' :=
      if negb (e =? 0) && (e <=? 7)
      then alter (λ v, Z.lxor v 1) (i + Z.to_nat (e - 1))%nat arr
      else arr in
    (arr', [Py.item arr' (i + 2); Py.item arr' (i + 4);
            Py.item arr' (i + 5); Py.item arr' (i + 6)]).

Definition decode_step (st : list Z * list Z) (i : nat) : list Z * list Z :=
  let '(arr, decoded) := st in
  let '(arr', out) := decode_at arr i in
  (arr', decoded ++ out).

(** The whole loop: the caller's array afterwards, and [decoded]. *)
Definition hamming_decode_run (encoded_bits : list Z) : list Z * list Z :=
  fold_left decode_step (Py.range (length encoded_bits) 7) (encoded_bits, []).

(** The value [hamming_decode] returns. *)
Definition hamming_decode (encoded_bits : list Z) : list Z :=
  snd (hamming_decode_run encoded_bits).

(** The caller's array after [hamming_decode] has returned. *)
Definition hamming_decode_arg (encoded_bits : list Z) : list Z :=
  fst (hamming_decode_run encoded_bits).

(** ** Modulation *)

Record complex := Complex { re : Q; im : Q }.

Definition Qlt_bool (x y : Q) : bool := negb (Qle_bool y x).

Definition bpsk_modulate (bits : list Z) : list Q :=
  map (λ b, 2 * inject_Z b - 1)%Q bits.

Definition bpsk_demodulate (signal : list Q) : list Z :=
  map (λ s, if Qle_bool 0 s then 1 else 0) signal.

(** The symbol loop of [qpsk_modulate], on the padded array. *)
Definition qpsk_symbols (bits : list Z) : list complex :=
  flat_map (λ i,
      if (i + 1 <? length bits)%nat then
        let b1 := Py.item bits i in
        let b2 := Py.item bits (i + 1) in
        let I := if b1 =? 1 then 1 else -1 in
        let Q := if b2 =? 1 then 1 else -1 in
        [Complex (inject_Z I) (inject_Z Q)]
      else [])
    (Py.range (length bits) 2).

Definition qpsk_modulate (bits : list Z) : list complex :=
  let bits := if negb (length bits mod 2 =? 0)%nat then bits ++ [0] else bits in
  qpsk_symbols bits.

Definition qpsk_demodulate (symbols : list complex) : list Z :=
  flat_map (λ sym,
      [if Qle_bool 0 (re sym) then 1 else 0;
       if Qle_bool 0 (im sym) then 1 else 0])
    symbols.

(** The [mapping] dictionary of [qam16_modulate]. *)
Definition mapping : gmap (Z * Z) Z :=
  <[(0, 0) := -3]> (<[(0, 1) := -1]> (<[(1, 1) := 1]> (<[(1, 0) := 3]> ∅))).

(** The symbol loop of [qam16_modulate], on the padded array. A missing
    key of [mapping] is a [KeyError]. *)
Definition qam16_symbols (bits : list Z) : option (list complex) :=
  (λ groups, concat groups) <$> mapM (λ i,
      if (i + 3 <? length bits)%nat then
        match Py.slice bits i (i + 4) with
        | [b1; b2; b3; b4] =>
            I ← mapping !! (b1, b2);
            Q ← mapping !! (b3, b4);
            Some [Complex (inject_Z I) (inject_Z Q)]
        | _ => None
        end
      else Some [])
    (Py.range (length bits) 4).

Definition qam16_modulate (bits : list Z) : option (list complex) :=
  let bits :=
    if negb (length bits mod 4 =? 0)%nat
    then bits ++ replicate (4 - length bits mod 4) 0
    else bits in
  qam16_symbols bits.

Definition qam16_demodulate (symbols : list complex) : list Z :=
  flat_map (λ sym,
      let I := re sym in
      let Q := im sym in
      [if Qlt_bool 0 I then 1 else 0; if Qlt_bool (Qabs I) 2 then 1 else 0;
       if Qlt_bool 0 Q then 1 else 0; if Qlt_bool (Qabs Q) 2 then 1 else 0])
    symbols.

(** The three schemes as [main] selects them, with the bits each symbol
    carries. *)
Inductive scheme := BPSK | QPSK | QAM16.

Definition bits_per_symbol (s : scheme) : nat :=
  match s with
  | BPSK => 1
  | QPSK => 2
  | QAM16 => 4
  end.

(** Modulate and demodulate with the channel stage left out. *)
Definition loopback (s : scheme) (bits : list Z) : option (list Z) :=
  match s with
  | BPSK => Some (bpsk_demodulate (bpsk_modulate bits))
  | QPSK => Some (qpsk_demodulate (qpsk_modulate bits))
  | QAM16 => qam16_demodulate <$> qam16_modulate bits
  end.

(** ** Channel: the noise power of [add_awgn_noise] *)



Section NoisePower.

(** [pow x y] is [x ** y] on floats. *)
Variable pow : float → float → float.


End NoisePower.


(** ** The text path of [main] without modulation and channel *)

Definition text_roundtrip (text : list N) : option (list N) :=
  bits_to_text (hamming_decode (hamming_encode (text_to_bits text))).

(** ** The encoder as the specification words it *)

(** The block [[p1, p2, d1, p3, d2, d3, d4]] with
    [p1 = d1 xor d2 xor d4], [p2 = d1 xor d3 xor d4],
    [p3 = d2 xor d3 xor d4]. *)
Definition codeword (d1 d2 d3 d4 : Z) : list Z :=
  let p1 := Z.lxor (Z.lxor d1 d2) d4 in
  let p2 := Z.lxor (Z.lxor d1 d3) d4 in
  let p3 := Z.lxor (Z.lxor d2 d3) d4 in
  [p1; p2; d1; p3; d2; d3; d4].

(** Groups of four in order, the last one filled up with zeros. *)
Fixpoint hamming_encode_spec (bits : list Z) : list Z :=
  match bits with
  | [] => []
  | [d1] => codeword d1 0 0 0
  | [d1; d2] => codeword d1 d2 0 0
  | [d1; d2; d3] => codeword d1 d2 d3 0
  | d1 :: d2 :: d3 :: d4 :: rest => codeword d1 d2 d3 d4 ++ hamming_encode_spec rest
  end.

(** A channel error at position [k] of a block: that bit is inverted. *)
Definition flip_bit (k : nat) (block : list Z) : list Z :=
  alter (λ v, 1 - v) k block.

(** ** Padding and channel errors *)

(** The number of zeros that fill a sequence of [n] entries up to a
    multiple of [k]. *)
Definition pad_len (k n : nat) : nat := ((k - n mod k) mod k)%nat.

(** Channel errors on a coded stream, block by block: [Some k] inverts bit
    [k] of the block, [None] leaves the block as it is. *)
Fixpoint corrupt (errs : list (option nat)) (code : list Z) : list Z :=
  match errs with
  | [] => code
  | e :: errs' =>
      match e with
      | Some k => flip_bit k (take 7 code)
      | None => take 7 code
      end ++ corrupt errs' (drop 7 code)
  end.

(** Every error named hits one of the seven bits of its block. *)
Definition errs_ok (errs : list (option nat)) : bool :=
  forallb (λ e, match e with Some k => (k <? 7)%nat | None => true end) errs.

(** ** The modulation dispatch of [main] *)

(** A numpy array of floats or of complex numbers. *)
Inductive signal :=
  | RealSignal (x : list Q)
  | ComplexSignal (z : list complex).

(** [signal.real] *)
Definition real_part (sig : signal) : list Q :=
  match sig with
  | RealSignal x => x
  | ComplexSignal z => map re z
  end.

(** The entries as the symbol loops read them: a float has imaginary
    part 0. *)
Definition as_complex (sig : signal) : list complex :=
  match sig with
  | RealSignal x => map (λ r, Complex r 0) x
  | ComplexSignal z => z
  end.

(** [if mod_choice == '1': modulated = bpsk_modulate(encoded) ...] *)
Definition modulate (s : scheme) (encoded : list Z) : option signal :=
  match s with
  | BPSK => Some (RealSignal (bpsk_modulate encoded))
  | QPSK => Some (ComplexSignal (qpsk_modulate encoded))
  | QAM16 => ComplexSignal <$> qam16_modulate encoded
  end.

(** [if mod_choice == '1': demodulated = bpsk_demodulate(noisy) ...] *)
Definition demodulate (s : scheme) (noisy : signal) : list Z :=
  match s with
  | BPSK => bpsk_demodulate (real_part noisy)
  | QPSK => qpsk_demodulate (as_complex noisy)
  | QAM16 => qam16_demodulate (as_complex noisy)
  end.

(** The text path of [main] up to the channel, and from the channel on. *)
Definition transmit (s : scheme) (message : list N) : option signal :=
  modulate s (hamming_encode (text_to_bits message)).

Definition receive (s : scheme) (noisy : signal) : option (list N) :=
  bits_to_text (hamming_decode (demodulate s noisy)).

(** A received value less than 1 away from the value sent. *)
Definition within1 (x y : Q) : bool := Qlt_bool (Qabs (y - x)) 1.

Definition close (sent received : complex) : bool :=
  within1 (re sent) (re received) && within1 (im sent) (im received).

(** The channel moved every symbol by less than 1 on each axis. *)
Definition within_margin (sent received : signal) : Prop :=
  Forall2 (λ s r, close s r = true) (as_complex sent) (as_complex received).

(** The amplitudes of the 16-QAM constellation on one axis. *)
Definition levels : list Z := [-3; -1; 1; 3].

(** ** Block-level notions for the Hamming decoder *)

(** The syndrome as a function of the parities of the seven entries. *)
Definition syndrome_of (o1 o2 o3 o4 o5 o6 o7 : bool) : Z :=
  Z.b2z (xorb (xorb (xorb o1 o3) o5) o7)
  + Z.b2z (xorb (xorb (xorb o2 o3) o6) o7) * 2
  + Z.b2z (xorb (xorb (xorb o4 o5) o6) o7) * 4.

(** [P] holds of every full block of [l]. *)
Definition all_blocks (P : list Z → Prop) (l : list Z) : Prop :=
  ∀ j, (7 * j + 7 ≤ length l)%nat → P (Py.slice l (7 * j) (7 * j + 7)).

(** ** Audio codec *)

(** The float32 arithmetic of the audio path: [main] hands [audio_to_bits]
    a float32 array, and [bits_to_audio] makes one. A value is a
    [spec_float]; the operations are the IEEE 754 ones at 24 bits of
    precision, rounding to nearest even. *)
Module F32.

Definition prec : Z := 24.
Definition emax : Z := 128.

(** An integer as a float32 (exact below [2 ^ 24]). *)
Definition of_Z (k : Z) : spec_float := binary_normalize prec emax k 0 false.

Definition mul : spec_float → spec_float → spec_float := SFmul prec emax.
Definition div : spec_float → spec_float → spec_float := SFdiv prec emax.

(** [.astype(np.int16)] for a value within the range of int16: the
    fraction is dropped. The cast of a NaN or an infinity is left to the
    platform and is [None] here. *)
Definition trunc (x : spec_float) : option Z :=
  match x with
  | S754_zero _ => Some 0
  | S754_finite s m e =>
      let a := if 0 <=? e then Z.pos m * 2 ^ e else Z.pos m / 2 ^ (- e) in
      Some (if s then - a else a)
  | _ => None
  end.

(** [np.clip(x, lo, hi)] for one entry; a NaN stays a NaN. *)
Definition clip (x lo hi : spec_float) : spec_float :=
  match x with
  | S754_nan => S754_nan
  | _ => if SFltb x lo then lo else if SFltb hi x then hi else x
  end.

(** [-1 <= x < 1] *)
Definition in_unit (x : spec_float) : bool :=
  SFleb (of_Z (-1)) x && SFltb x (of_Z 1).

End F32.

(** The byte order of the platform, which [view] and [frombuffer] use. *)
Inductive byteorder := LittleEndian | BigEndian.

(** [scaled.view(np.uint8)] for one int16: its two bytes in memory. *)
Definition int16_bytes (order : byteorder) (k : Z) : list Z :=
  let u := k mod 65536 in
  match order with
  | LittleEndian => [u mod 256; u / 256]
  | BigEndian => [u / 256; u mod 256]
  end.

(** [np.unpackbits]: every byte as 8 bits, the most significant first. *)
Definition byte_bits (b : Z) : list Z :=
  map (λ i, Z.b2z (Z.testbit b i)) [7; 6; 5; 4; 3; 2; 1; 0].

Definition unpackbits (bytes : list Z) : list Z := flat_map byte_bits bytes.

(** One sample of [audio_to_bits] up to the cast:
    [(np.clip(x, -1.0, 1.0) * 32767).astype(np.int16)]. *)
Definition scale_sample (x : spec_float) : option Z :=
  F32.trunc (F32.mul (F32.clip x (F32.of_Z (-1)) (F32.of_Z 1)) (F32.of_Z 32767)).

Definition audio_to_bits (order : byteorder) (audio : list spec_float)
    : option (list Z) :=
  scaled ← mapM scale_sample audio;
  Some (unpackbits (flat_map (int16_bytes order) scaled)).

(** One byte of [np.packbits]: up to 8 entries, the first one the most
    significant bit, a nonzero entry a 1, missing entries 0. *)
Definition pack_byte (group : list Z) : Z :=
  fold_left (λ acc b, 2 * acc + (if b =? 0 then 0 else 1))
            (group ++ replicate (8 - length group) 0) 0.

Definition packbits (bits : list Z) : list Z := map pack_byte (Py.chunks 8 bits).

(** The int16 held in two bytes of memory. *)
Definition int16_of_bytes (order : byteorder) (pair : list Z) : Z :=
  let u := match pair, order with
           | [b0; b1], LittleEndian => b0 + 256 * b1
           | [b0; b1], BigEndian => 256 * b0 + b1
           | _, _ => 0
           end in
  if u <? 32768 then u else u - 65536.

(** [np.frombuffer(byte_data, dtype=np.int16)]: a [ValueError] when the
    buffer does not hold a whole number of int16. *)
Definition frombuffer_int16 (order : byteorder) (byte_data : list Z)
    : option (list Z) :=
  if negb (length byte_data mod 2 =? 0)%nat then None
  else Some (map (int16_of_bytes order) (Py.chunks 2 byte_data)).

(** [x.astype(np.float32) / 32768]: an int16 sample as a float32 in
    [-1, 1), as [bits_to_audio] returns it and as [main] prepares the
    samples of a 16-bit wav file. *)
Definition wav_normalise (k : Z) : spec_float :=
  F32.div (F32.of_Z k) (F32.of_Z 32768).

Definition bits_to_audio (order : byteorder) (bits : list Z) (sample_rate : Z)
    : option (list spec_float * Z) :=
  let bits :=
    if negb (length bits mod 8 =? 0)%nat
    then Py.slice bits 0 (length bits - length bits mod 8)
    else bits in
  let byte_data := packbits bits in
  audio ← frombuffer_int16 order byte_data;
  Some (map wav_normalise audio, sample_rate).

(** [f] holds of the [n] integers from [k] on. *)
Fixpoint all_from (n : nat) (k : Z) (f : Z → bool) : bool :=
  match n with
  | O => true
  | S n' => f k && all_from n' (k + 1) f
  end.

(** The values of an int16. *)
Definition is_int16 (k : Z) : bool := (-32768 <=? k) && (k <=? 32767).

(** The 8 bits of a byte are bits and pack to the byte. *)
Definition byte_ok (b : Z) : bool :=
  (length (byte_bits b) =? 8)%nat && is_bits (byte_bits b)
  && (pack_byte (byte_bits b) =? b).

(** The audio path of [main] up to the channel, and from the channel
    on. *)
Definition transmit_audio (order : byteorder) (s : scheme)
    (audio : list spec_float) : option signal :=
  bits ← audio_to_bits order audio;
  modulate s (hamming_encode bits).

Definition receive_audio (order : byteorder) (s : scheme) (noisy : signal)
    (sample_rate : Z) : option (list spec_float * Z) :=
  bits_to_audio order (hamming_decode (demodulate s noisy)) sample_rate.

(** What the audio branch of [main] does with the decoded bits. *)
Inductive audio_output :=
  | AudioError
  | AudioEmpty
  | AudioSaved (sample_rate : Z) (samples : list Z).

(** [AudioError]: [bits_to_audio] raised and [main] prints the error.
    [AudioEmpty]: no sample came out, [main] warns and writes nothing.
    [AudioSaved]: [main] writes [received_output.wav] with the samples
    [(np.clip(received_audio, -1.0, 1.0) * 32767).astype(np.int16)]. *)
Definition save_audio (order : byteorder) (decoded : list Z) (sample_rate : Z)
    : option audio_output :=
  match bits_to_audio order decoded sample_rate with
  | None => Some AudioError
  | Some ([], _) => Some AudioEmpty
  | Some (received_audio, sr) =>
      samples ← mapM scale_sample received_audio;
      Some (AudioSaved sr samples)
  end.

(** * Properties *)

(** ** Facts about the Python building blocks *)

Module PyFacts.
Import Py.

Lemma range_from_shift k fuel i stop step :
  range_from fuel (k + i) (k + stop) step = map (Nat.add k) (range_from fuel i stop step).
Proof.
  revert i. induction fuel as [|fuel IH]; intros i; simpl; [done|].
  replace (k + i <? k + stop)%nat with (i <? stop)%nat
    by (destruct (Nat.ltb_spec i stop), (Nat.ltb_spec (k + i) (k + stop)); auto; lia).
  destruct (i <? stop)%nat; simpl; [|done].
  f_equal. rewrite <- IH. f_equal. lia.
Qed.

Lemma range_from_fuel f1 f2 i stop step :
  (0 < step)%nat → (stop - i ≤ f1)%nat → (stop - i ≤ f2)%nat →
  range_from f1 i stop step = range_from f2 i stop step.
Proof.
  intros Hstep. revert f2 i. induction f1 as [|f1 IH]; intros f2 i H1 H2.
  - destruct f2 as [|f2]; simpl; [done|].
    destruct (Nat.ltb_spec i stop); [lia|done].
  - destruct f2 as [|f2]; simpl.
    + destruct (Nat.ltb_spec i stop); [lia|done].
    + destruct (Nat.ltb_spec i stop); [|done].
      f_equal. apply IH; lia.
Qed.

Lemma range_nil step : range 0 step = [].
Proof. done. Qed.

(** A sequence that starts with a whole group of [k] items: the loop visits
    index 0 and then the indices of the rest, shifted by [k]. *)
Lemma range_add k n :
  (0 < k)%nat → range (k + n) k = 0%nat :: map (Nat.add k) (range n k).
Proof.
  intros Hk. unfold range.
  rewrite <- (range_from_shift k n 0 n k), Nat.add_0_r.
  destruct (k + n)%nat as [|m] eqn:Hm; [lia|].
  cbn [range_from]. rewrite Nat.add_0_l, <- Hm.
  destruct (Nat.ltb_spec 0 (k + n)); [|lia].
  f_equal. apply range_from_fuel; lia.
Qed.

(** A sequence shorter than one group: the loop visits index 0 only. *)
Lemma range_short n k : (0 < n)%nat → (n ≤ k)%nat → range n k = [0%nat].
Proof.
  intros Hn Hk. unfold range. destruct n as [|n]; [lia|]. simpl.
  f_equal. destruct n as [|n]; simpl; [done|].
  destruct (Nat.ltb_spec k (S (S n))); [lia|done].
Qed.

(** [range] is not cut short by its fuel: it holds the multiples of the
    step below [stop], all of them. *)
Lemma range_elem k n i :
  (0 < k)%nat → In i (range n k) ↔ (i < n)%nat ∧ (i mod k = 0)%nat.
Proof.
  intros Hk. revert i. induction n as [n IH] using lt_wf_ind. intros i.
  destruct (Nat.eq_dec n 0%nat) as [-> | Hn]; [simpl; lia|].
  destruct (Nat.le_gt_cases n k) as [Hle | Hgt].
  - rewrite range_short by lia. simpl. split.
    + intros [<- | []]. split; [lia | by apply Nat.Div0.mod_0_l].
    + intros [Hi Hmod]. left. rewrite Nat.mod_small in Hmod; lia.
  - replace n with (k + (n - k))%nat at 1 by lia.
    rewrite range_add by done. simpl. rewrite in_map_iff. split.
    + intros [<- | (j & <- & Hj)]; [split; [lia | by apply Nat.Div0.mod_0_l]|].
      apply IH in Hj as [Hj Hmod]; [|lia]. split; [lia|].
      replace (k + j)%nat with (j + 1 * k)%nat by lia.
      by rewrite Nat.Div0.mod_add.
    + intros [Hi Hmod].
      destruct (Nat.lt_ge_cases i k) as [Hlt | Hge].
      { left. rewrite Nat.mod_small in Hmod; lia. }
      right. exists (i - k)%nat. split; [lia|]. apply IH; [lia|].
      split; [lia|].
      replace i with (i - k + 1 * k)%nat in Hmod by lia.
      by rewrite Nat.Div0.mod_add in Hmod.
Qed.

Lemma slice_app_shift {A} (pre l : list A) i j :
  slice (pre ++ l) (length pre + i) (length pre + j) = slice l i j.
Proof.
  unfold slice. rewrite drop_app_add'; [|done].
  f_equal. lia.
Qed.

Lemma slice_head {A} (b rest : list A) k :
  length b = k → slice (b ++ rest) 0 (0 + k) = b.
Proof.
  intros <-. unfold slice. rewrite drop_0.
  replace (0 + length b - 0)%nat with (length b) by lia.
  by rewrite take_app_length.
Qed.

Lemma slice_short {A} (l : list A) k :
  (length l ≤ k)%nat → slice l 0 (0 + k) = l.
Proof.
  intros H. unfold slice. rewrite drop_0. apply take_ge. lia.
Qed.

Lemma item_app_shift pre l i : item (pre ++ l) (length pre + i) = item l i.
Proof. unfold item. apply app_nth2_plus. Qed.

Lemma chunks_nil {A} k : chunks k (@nil A) = [].
Proof. done. Qed.

Lemma chunks_app {A} k (b rest : list A) :
  (0 < k)%nat → length b = k → chunks k (b ++ rest) = b :: chunks k rest.
Proof.
  intros Hk Hb. unfold chunks.
  rewrite length_app, Hb, range_add by done. cbn [map].
  rewrite (slice_head b rest k Hb). f_equal.
  rewrite map_map. apply map_ext. intros i.
  rewrite <- (slice_app_shift b rest i (i + k)), Hb. f_equal. lia.
Qed.

Lemma chunks_short {A} k (l : list A) :
  (0 < length l)%nat → (length l ≤ k)%nat → chunks k l = [l].
Proof.
  intros Hl Hk. unfold chunks. rewrite range_short by done. cbn [map].
  by rewrite slice_short.
Qed.

(** Induction over a list one group of [k] items at a time. *)
Lemma chunk_ind {A} k (P : list A → Prop) :
  (0 < k)%nat →
  (∀ l, (length l < k)%nat → P l) →
  (∀ b rest, length b = k → P rest → P (b ++ rest)) →
  ∀ l, P l.
Proof.
  intros Hk Hshort Hstep l.
  remember (length l) as n eqn:Hn. revert l Hn.
  induction n as [n IH] using lt_wf_ind. intros l ->.
  destruct (Nat.lt_ge_cases (length l) k) as [Hlt|Hge]; [by apply Hshort|].
  rewrite <- (take_drop k l). apply Hstep.
  - rewrite length_take. lia.
  - apply (IH (length (drop k l))); [rewrite length_drop; lia|done].
Qed.

End PyFacts.

(** ** The Hamming loops, one group at a time *)

Section HammingLoops.
Import Py PyFacts.

Lemma pad4_full d : length d = 4%nat → pad4 d = d.
Proof. intros H. unfold pad4. rewrite H. simpl. apply app_nil_r. Qed.

Lemma hamming_encode_chunks l :
  hamming_encode l = flat_map (λ d, encode_group (pad4 d)) (chunks 4 l).
Proof.
  unfold hamming_encode, chunks. by rewrite !flat_map_concat_map, map_map.
Qed.

Lemma hamming_encode_nil : hamming_encode [] = [].
Proof. done. Qed.

Lemma hamming_encode_app b rest :
  length b = 4%nat →
  hamming_encode (b ++ rest) = encode_group b ++ hamming_encode rest.
Proof.
  intros Hb. rewrite !hamming_encode_chunks, chunks_app by (done || lia).
  cbn [flat_map]. by rewrite pad4_full.
Qed.

Lemma hamming_encode_short l :
  (0 < length l)%nat → (length l < 4)%nat →
  hamming_encode l = encode_group (pad4 l).
Proof.
  intros H0 H4. rewrite hamming_encode_chunks, chunks_short by lia.
  cbn [flat_map]. apply app_nil_r.
Qed.

(** The syndrome of a block is a number from 0 to 7. *)
Lemma land_1_cases x : Z.land x 1 = 0 ∨ Z.land x 1 = 1.
Proof.
  pose proof (Z.land_ones x 1 ltac:(lia)) as H.
  change (Z.ones 1) with 1 in H. change (2 ^ 1) with 2 in H.
  pose proof (Z.mod_pos_bound x 2). lia.
Qed.

Lemma error_pos_range block : 0 ≤ error_pos block ≤ 7.
Proof.
  unfold error_pos.
  do 7 (destruct block as [|? block]; [lia|]).
  destruct block; [|lia].
  repeat match goal with
         | |- context [Z.land ?x 1] =>
             let H := fresh in
             destruct (land_1_cases x) as [H|H]; rewrite H; clear H
         end; lia.
Qed.

Lemma decode_at_length arr i : length (fst (decode_at arr i)) = length arr.
Proof.
  unfold decode_at. destruct (_ <? 7)%nat; [done|]. cbn [fst].
  destruct (_ && _); [apply length_alter|done].
Qed.

(** Entries before the block under the cursor are out of the iteration's
    reach. *)
Lemma decode_at_frame pre arr i :
  decode_at (pre ++ arr) (length pre + i) =
  (pre ++ fst (decode_at arr i), snd (decode_at arr i)).
Proof.
  unfold decode_at.
  replace (length pre + i + 7)%nat with (length pre + (i + 7))%nat by lia.
  rewrite slice_app_shift.
  destruct (_ <? 7)%nat; [done|]. cbn [fst snd].
  set (e := error_pos (slice arr i (i + 7))).
  replace (length pre + i + Z.to_nat (e - 1))%nat
    with (length pre + (i + Z.to_nat (e - 1)))%nat by lia.
  rewrite alter_app_r.
  assert (Hitem : ∀ X k, item (pre ++ X) (length pre + i + k) = item X (i + k))
    by (intros; rewrite <- Nat.add_assoc; apply item_app_shift).
  destruct (_ && _); by rewrite !Hitem.
Qed.

(** Entries after a full first block are out of the first iteration's
    reach. *)
Lemma decode_at_head b rest :
  length b = 7%nat →
  decode_at (b ++ rest) 0 = (fst (decode_at b 0) ++ rest, snd (decode_at b 0)).
Proof.
  intros Hb. unfold decode_at.
  rewrite (slice_head b rest 7 Hb), (slice_short b 7) by lia.
  rewrite Hb. cbn [Nat.ltb Nat.leb fst snd].
  pose proof (error_pos_range b) as He.
  set (e := error_pos b) in *.
  destruct (negb (e =? 0) && (e <=? 7)) eqn:Hc; cbn [fst snd].
  - apply andb_prop in Hc as [Hne _]. apply negb_true_iff, Z.eqb_neq in Hne.
    rewrite alter_app_l by lia.
    assert (Hlen : length (alter (λ v, Z.lxor v 1) (0 + Z.to_nat (e - 1))%nat b) = 7%nat)
      by (by rewrite length_alter).
    unfold item. rewrite !app_nth1 by lia. done.
  - unfold item. rewrite !app_nth1 by lia. done.
Qed.

Lemma decode_fold_decoded idxs arr dec :
  fold_left decode_step idxs (arr, dec) =
  (fst (fold_left decode_step idxs (arr, [])),
   dec ++ snd (fold_left decode_step idxs (arr, []))).
Proof.
  revert arr dec. induction idxs as [|i idxs IH]; intros arr dec; cbn [fold_left].
  - by rewrite app_nil_r.
  - unfold decode_step at 2 4 6. destruct (decode_at arr i) as [arr' out].
    rewrite (IH arr' (dec ++ out)), (IH arr' ([] ++ out)). cbn [fst snd].
    by rewrite app_assoc.
Qed.

Lemma decode_fold_frame pre idxs arr dec :
  fold_left decode_step (map (Nat.add (length pre)) idxs) (pre ++ arr, dec) =
  (pre ++ fst (fold_left decode_step idxs (arr, [])),
   dec ++ snd (fold_left decode_step idxs (arr, []))).
Proof.
  revert arr dec. induction idxs as [|i idxs IH]; intros arr dec; cbn [fold_left map].
  - by rewrite app_nil_r.
  - unfold decode_step at 2 4 6. rewrite decode_at_frame.
    destruct (decode_at arr i) as [arr' out]. cbn [fst snd].
    rewrite IH, (decode_fold_decoded idxs arr' ([] ++ out)). cbn [fst snd].
    by rewrite app_assoc.
Qed.

Lemma hamming_decode_run_short l :
  (length l < 7)%nat → hamming_decode_run l = (l, []).
Proof.
  intros Hl. unfold hamming_decode_run.
  destruct l as [|x l]; [done|].
  rewrite range_short by (simpl in *; lia). cbn [fold_left decode_step].
  unfold decode_at. rewrite slice_short by lia.
  destruct (Nat.ltb_spec (length (x :: l)) 7); [done|lia].
Qed.

Lemma hamming_decode_run_app b rest :
  length b = 7%nat →
  hamming_decode_run (b ++ rest) =
  (fst (decode_at b 0) ++ fst (hamming_decode_run rest),
   snd (decode_at b 0) ++ snd (hamming_decode_run rest)).
Proof.
  intros Hb. unfold hamming_decode_run.
  rewrite length_app, Hb, range_add by lia. cbn [fold_left].
  unfold decode_step at 2. rewrite decode_at_head by done.
  assert (Hpre : length (fst (decode_at b 0)) = 7%nat)
    by (by rewrite decode_at_length).
  rewrite <- Hpre at 1. rewrite decode_fold_frame. by rewrite app_nil_l.
Qed.

End HammingLoops.

(** ** Bit sequences *)

Section Bits.

Lemma is_bit_cases b : is_bit b = true → b = 0 ∨ b = 1.
Proof. unfold is_bit. intros [H|H]%orb_prop; apply Z.eqb_eq in H; auto. Qed.

Lemma is_bits_cons b l : is_bits (b :: l) = true → (b = 0 ∨ b = 1) ∧ is_bits l = true.
Proof. intros [Hb Hl]%andb_prop. split; [by apply is_bit_cases|done]. Qed.

Lemma is_bits_app l1 l2 :
  is_bits (l1 ++ l2) = true → is_bits l1 = true ∧ is_bits l2 = true.
Proof. unfold is_bits. rewrite forallb_app. apply andb_prop. Qed.

End Bits.

(** Replace every bit named in an [is_bits] hypothesis by 0 and by 1. *)
Ltac split_bits :=
  repeat match goal with
         | H : is_bits (_ :: _) = true |- _ =>
             apply is_bits_cons in H as [[-> | ->] H]
         end.

(** Name the entries of a list of known length. *)
Ltac open_list l H :=
  repeat (destruct l as [|? l]; [discriminate H|]);
  destruct l; [clear H|discriminate H].

(** ** Hamming(7,4) *)

Section Hamming.
Import Py PyFacts.

(** C4. [hamming_encode] cuts a bit sequence into groups of four, fills the
    last group with zeros, and emits for each group, in order, the block
    [[p1, p2, d1, p3, d2, d3, d4]] with the three parities of the
    specification; the output has [ceil(n / 4) * 7] entries. *)
Theorem hamming_encode_refines_spec bits :
  is_bits bits = true →
  hamming_encode bits = hamming_encode_spec bits ∧
  length (hamming_encode bits) = ((length bits + 3) / 4 * 7)%nat.
Proof.
  pattern bits; revert bits; apply (chunk_ind 4);
    [lia | intros bits Hshort | intros b rest Hb IH].
  - intros Hbits.
    destruct bits as [|d1 [|d2 [|d3 [|d4 bits]]]]; [done|..]; [| | |simpl in Hshort; lia];
      (rewrite hamming_encode_short by (simpl; lia)); split_bits; done.
  - intros [Hbb Hrest]%is_bits_app. destruct (IH Hrest) as [IH1 IH2].
    rewrite hamming_encode_app, length_app, IH2, IH1 by done.
    open_list b Hb. cbn [app hamming_encode_spec length].
    split.
    + f_equal. split_bits; done.
    + cbn [encode_group length].
      replace (S (S (S (S (length rest)))) + 3)%nat
        with (length rest + 3 + 1 * 4)%nat by lia.
      rewrite Nat.div_add by lia. lia.
Qed.

Lemma hamming_encode_refines_spec_witness :
  is_bits [1; 0; 1; 1; 0; 1] = true ∧
  hamming_encode [1; 0; 1; 1; 0; 1] = hamming_encode_spec [1; 0; 1; 1; 0; 1] ∧
  length (hamming_encode [1; 0; 1; 1; 0; 1]) = ((length [1; 0; 1; 1; 0; 1] + 3) / 4 * 7)%nat.
Proof. split; [reflexivity | apply (hamming_encode_refines_spec [1; 0; 1; 1; 0; 1]); reflexivity]. Defined.

(** C2. For every data nibble, the block [hamming_encode] makes of it has
    syndrome 0 and decodes to the nibble; with any one of its seven bits
    inverted, the syndrome [s1 + 2*s2 + 4*s3] is the 1-based position of
    that bit and [hamming_decode] still returns the nibble. *)
Theorem hamming_single_error_corrected d1 d2 d3 d4 k :
  is_bits [d1; d2; d3; d4] = true → (k < 7)%nat →
  let block := hamming_encode [d1; d2; d3; d4] in
  error_pos block = 0 ∧
  hamming_decode block = [d1; d2; d3; d4] ∧
  error_pos (flip_bit k block) = Z.of_nat k + 1 ∧
  hamming_decode (flip_bit k block) = [d1; d2; d3; d4].
Proof.
  intros Hbits Hk.
  assert (Hcases : k ∈ [0; 1; 2; 3; 4; 5; 6]%nat)
    by (rewrite !elem_of_cons; lia).
  split_bits;
    repeat (apply elem_of_cons in Hcases as [-> | Hcases]; [by vm_compute|]);
    by apply elem_of_nil in Hcases.
Qed.

Lemma hamming_single_error_corrected_witness :
  let block := hamming_encode [1; 0; 1; 1] in
  error_pos block = 0 ∧
  hamming_decode block = [1; 0; 1; 1] ∧
  error_pos (flip_bit 4 block) = Z.of_nat 4 + 1 ∧
  hamming_decode (flip_bit 4 block) = [1; 0; 1; 1].
Proof. apply (hamming_single_error_corrected 1 0 1 1 4); [reflexivity | lia]. Defined.

Lemma decode_at_out_length b :
  length b = 7%nat → length (snd (decode_at b 0)) = 4%nat.
Proof.
  intros Hb. unfold decode_at. rewrite slice_short, Hb by lia. done.
Qed.

(** C8. [hamming_decode] returns four bits for each full block of seven
    and nothing for a shorter tail: on [n] entries the result has
    [4 * floor(n / 7)] entries and is the result on the first
    [7 * floor(n / 7)] entries alone. *)
Theorem hamming_decode_drops_partial_block encoded_bits :
  length (hamming_decode encoded_bits) = (4 * (length encoded_bits / 7))%nat ∧
  hamming_decode encoded_bits =
    hamming_decode (take (7 * (length encoded_bits / 7)) encoded_bits).
Proof.
  unfold hamming_decode.
  pattern encoded_bits; revert encoded_bits; apply (chunk_ind 7);
    [lia | intros l Hshort | intros b rest Hb [IH1 IH2]].
  - rewrite hamming_decode_run_short by done.
    replace (length l / 7)%nat with 0%nat by (symmetry; apply Nat.div_small; lia).
    done.
  - assert (Hq : (length (b ++ rest) / 7 = 1 + length rest / 7)%nat).
    { rewrite length_app, Hb.
      change 7%nat with (1 * 7)%nat at 1. by rewrite Nat.div_add_l. }
    rewrite Hq, hamming_decode_run_app by done. cbn [snd].
    replace (7 * (1 + length rest / 7))%nat
      with (length b + 7 * (length rest / 7))%nat by lia.
    rewrite take_app_add', hamming_decode_run_app by done. cbn [snd].
    rewrite length_app, decode_at_out_length, IH1, <- IH2 by done.
    split; [lia|done].
Qed.

Lemma lxor_1_ne v : Z.lxor v 1 ≠ v.
Proof.
  intros H. apply (f_equal (Z.lxor v)) in H.
  rewrite <- Z.lxor_assoc, Z.lxor_nilpotent, Z.lxor_0_l in H. discriminate H.
Qed.

Lemma alter_lxor_ne (l : list Z) k :
  (k < length l)%nat → alter (λ v, Z.lxor v 1) k l ≠ l.
Proof.
  intros Hk Heq. apply lookup_lt_is_Some_2 in Hk as [v Hv].
  apply (f_equal (λ l', l' !! k)) in Heq. simpl in Heq.
  rewrite list_lookup_alter_eq, Hv in Heq. simpl in Heq.
  injection Heq. apply lxor_1_ne.
Qed.

(** C10. [hamming_decode] changes its argument: whenever some full block of
    the input (the [j]-th, at offset [7 * j]) has a nonzero syndrome, the
    caller's array after the call differs from the array passed in. *)
Theorem hamming_decode_modifies_argument encoded_bits j :
  (7 * j + 7 ≤ length encoded_bits)%nat →
  error_pos (slice encoded_bits (7 * j) (7 * j + 7)) ≠ 0 →
  hamming_decode_arg encoded_bits ≠ encoded_bits.
Proof.
  unfold hamming_decode_arg. revert encoded_bits.
  induction j as [|j IH]; intros l Hlen Hsyn Heq;
    rewrite <- (take_drop 7 l) in Heq, Hsyn;
    assert (Hb : length (take 7 l) = 7%nat) by (rewrite length_take; lia);
    rewrite hamming_decode_run_app in Heq by done; cbn [fst] in Heq;
    apply app_inj_1 in Heq as [Hhead Htail];
    try (by rewrite decode_at_length).
  - change (7 * 0)%nat with 0%nat in Hsyn.
    rewrite (slice_head (take 7 l) (drop 7 l) 7 Hb) in Hsyn.
    unfold decode_at in Hhead. rewrite slice_short, Hb in Hhead by lia.
    cbn [Nat.ltb Nat.leb fst] in Hhead.
    pose proof (error_pos_range (take 7 l)) as He.
    destruct (Z.eqb_spec (error_pos (take 7 l)) 0) as [|_]; [done|].
    destruct (Z.leb_spec (error_pos (take 7 l)) 7) as [_|]; [|lia].
    cbn [negb andb] in Hhead.
    by apply alter_lxor_ne in Hhead; [|lia].
  - apply (IH (drop 7 l)); [rewrite length_drop; lia| |done].
    replace (7 * S j)%nat with (length (take 7 l) + 7 * j)%nat in Hsyn by lia.
    replace (length (take 7 l) + 7 * j + 7)%nat
      with (length (take 7 l) + (7 * j + 7))%nat in Hsyn by lia.
    by rewrite slice_app_shift in Hsyn.
Qed.

Lemma hamming_decode_modifies_argument_witness :
  hamming_decode_arg [1; 1; 1; 0; 0; 0; 0; 0; 0; 0; 0; 0; 0; 1; 1; 1]
  ≠ [1; 1; 1; 0; 0; 0; 0; 0; 0; 0; 0; 0; 0; 1; 1; 1].
Proof.
  apply (hamming_decode_modifies_argument
           [1; 1; 1; 0; 0; 0; 0; 0; 0; 0; 0; 0; 0; 1; 1; 1] 1).
  - simpl. lia.
  - vm_compute. discriminate.
Defined.

End Hamming.

(** ** Modulation without noise *)

Section Modem.
Import Py PyFacts.

Lemma bpsk_bit b :
  is_bit b = true → (if Qle_bool 0 (2 * inject_Z b - 1) then 1 else 0) = b.
Proof. intros [-> | ->]%is_bit_cases; reflexivity. Qed.

Lemma bpsk_loopback bits :
  is_bits bits = true → bpsk_demodulate (bpsk_modulate bits) = bits.
Proof.
  unfold bpsk_demodulate, bpsk_modulate.
  induction bits as [|b bits IH]; [done|].
  intros [Hb Hbits]%andb_prop. cbn [map]. by rewrite bpsk_bit, IH.
Qed.

Lemma qpsk_symbols_cons2 a b rest :
  qpsk_symbols (a :: b :: rest) =
  Complex (inject_Z (if a =? 1 then 1 else -1)) (inject_Z (if b =? 1 then 1 else -1))
    :: qpsk_symbols rest.
Proof.
  unfold qpsk_symbols.
  change (length (a :: b :: rest)) with (2 + length rest)%nat.
  rewrite range_add by lia. cbn [flat_map].
  destruct (Nat.ltb_spec (0 + 1) (2 + length rest)); [|lia].
  cbn [app]. f_equal.
  rewrite flat_map_concat_map, map_map, <- flat_map_concat_map.
  apply flat_map_ext. intros i.
  replace (2 + i + 1 <? 2 + length rest)%nat with (i + 1 <? length rest)%nat
    by (destruct (Nat.ltb_spec (i + 1) (length rest)),
                 (Nat.ltb_spec (2 + i + 1) (2 + length rest)); auto; lia).
  done.
Qed.

Lemma qpsk_symbols_loopback n : ∀ bits,
  length bits = (2 * n)%nat → is_bits bits = true →
  qpsk_demodulate (qpsk_symbols bits) = bits.
Proof.
  induction n as [|n IH]; intros bits Hlen Hbits.
  - by destruct bits.
  - destruct bits as [|a [|b rest]]; [simpl in Hlen; lia..|].
    rewrite qpsk_symbols_cons2. unfold qpsk_demodulate. cbn [flat_map app].
    fold (qpsk_demodulate (qpsk_symbols rest)).
    apply is_bits_cons in Hbits as [Ha Hbits].
    apply is_bits_cons in Hbits as [Hb Hbits].
    rewrite IH by (simpl in Hlen; lia || done).
    destruct Ha as [-> | ->], Hb as [-> | ->]; reflexivity.
Qed.

Lemma mapM_map {A B C} (f : B → option C) (g : A → B) l :
  mapM f (map g l) = mapM (λ x, f (g x)) l.
Proof. induction l as [|x l IH]; [done|]. cbn [map mapM]. by rewrite IH. Qed.

Lemma mapM_ext_eq {A B} (f g : A → option B) l :
  (∀ x, f x = g x) → mapM f l = mapM g l.
Proof. intros H. induction l as [|x l IH]; [done|]. cbn [mapM]. by rewrite H, IH. Qed.

Lemma qam16_symbols_cons4 a b c d rest :
  qam16_symbols (a :: b :: c :: d :: rest) =
  I ← mapping !! (a, b);
  Q ← mapping !! (c, d);
  symbols ← qam16_symbols rest;
  Some (Complex (inject_Z I) (inject_Z Q) :: symbols).
Proof.
  unfold qam16_symbols.
  change (length (a :: b :: c :: d :: rest)) with (4 + length rest)%nat.
  rewrite range_add by lia. cbn [mapM].
  destruct (Nat.ltb_spec (0 + 3) (4 + length rest)); [|lia].
  rewrite mapM_map.
  rewrite (mapM_ext_eq _ (λ i,
      if (i + 3 <? length rest)%nat then
        match slice rest i (i + 4) with
        | [b1; b2; b3; b4] =>
            I ← mapping !! (b1, b2);
            Q ← mapping !! (b3, b4);
            Some [Complex (inject_Z I) (inject_Z Q)]
        | _ => None
        end
      else Some [])).
  - change (slice (a :: b :: c :: d :: rest) 0 (0 + 4)) with [a; b; c; d].
    cbv beta iota.
    destruct (mapping !! (a, b)) as [I|]; [|done].
    destruct (mapping !! (c, d)) as [Q|]; [|done].
    by destruct (mapM _ _).
  - intros i.
    replace (4 + i + 3 <? 4 + length rest)%nat with (i + 3 <? length rest)%nat
      by (destruct (Nat.ltb_spec (i + 3) (length rest)),
                   (Nat.ltb_spec (4 + i + 3) (4 + length rest)); auto; lia).
    replace (slice (a :: b :: c :: d :: rest) (4 + i) (4 + i + 4))
      with (slice rest i (i + 4)); [done|].
    change (a :: b :: c :: d :: rest) with ([a; b; c; d] ++ rest).
    change 4%nat with (length [a; b; c; d]) at 3 4.
    by rewrite <- Nat.add_assoc, slice_app_shift.
Qed.

Lemma qam16_axis a b :
  is_bits [a; b] = true →
  ∃ v, mapping !! (a, b) = Some v ∧
       (if Qlt_bool 0 (inject_Z v) then 1 else 0) = a ∧
       (if Qlt_bool (Qabs (inject_Z v)) 2 then 1 else 0) = b.
Proof.
  intros H. split_bits.
  - exists (-3). by vm_compute.
  - exists (-1). by vm_compute.
  - exists 3. by vm_compute.
  - exists 1. by vm_compute.
Qed.

Lemma qam16_symbols_loopback n : ∀ bits,
  length bits = (4 * n)%nat → is_bits bits = true →
  qam16_demodulate <$> qam16_symbols bits = Some bits.
Proof.
  induction n as [|n IH]; intros bits Hlen Hbits.
  - by destruct bits.
  - destruct bits as [|a [|b [|c [|d rest]]]]; [simpl in Hlen; lia..|].
    rewrite qam16_symbols_cons4.
    assert (Hab : is_bits [a; b] = true ∧ is_bits [c; d] = true ∧ is_bits rest = true).
    { change (a :: b :: c :: d :: rest) with ([a; b] ++ [c; d] ++ rest) in Hbits.
      apply is_bits_app in Hbits as [? [? ?]%is_bits_app]. done. }
    destruct Hab as (Hab & Hcd & Hrest).
    destruct (qam16_axis a b Hab) as (I & -> & HI1 & HI2).
    destruct (qam16_axis c d Hcd) as (Q & -> & HQ1 & HQ2).
    specialize (IH rest ltac:(simpl in Hlen; lia) Hrest).
    destruct (qam16_symbols rest) as [symbols|]; [|done].
    change (Some (qam16_demodulate symbols) = Some rest) in IH.
    injection IH as IH.
    change (Some (qam16_demodulate (Complex (inject_Z I) (inject_Z Q) :: symbols))
            = Some (a :: b :: c :: d :: rest)).
    unfold qam16_demodulate in IH |- *. cbn [flat_map re im app].
    by rewrite HI1, HI2, HQ1, HQ2, IH.
Qed.

(** C3. With no noise added, each scheme's demodulator returns the bits its
    modulator was given, for every bit sequence whose length is a multiple
    of the scheme's bits per symbol. *)
Theorem loopback_identity s bits :
  is_bits bits = true →
  (length bits mod bits_per_symbol s = 0)%nat →
  loopback s bits = Some bits.
Proof.
  intros Hbits Hlen. destruct s; cbn [loopback bits_per_symbol] in *.
  - by rewrite bpsk_loopback.
  - unfold qpsk_modulate. rewrite Hlen. cbn [Nat.eqb negb].
    apply Nat.Div0.div_exact in Hlen.
    by rewrite (qpsk_symbols_loopback _ _ Hlen).
  - unfold qam16_modulate. rewrite Hlen. cbn [Nat.eqb negb].
    apply Nat.Div0.div_exact in Hlen.
    by apply (qam16_symbols_loopback _ _ Hlen).
Qed.

Lemma loopback_identity_witness :
  loopback QAM16 [1; 0; 1; 1; 0; 0; 0; 1] = Some [1; 0; 1; 1; 0; 0; 0; 1].
Proof. apply (loopback_identity QAM16 [1; 0; 1; 1; 0; 0; 0; 1]); reflexivity. Defined.

End Modem.

(** ** Text codec *)

Section Text.
Import Py PyFacts.

Lemma latin1_chars_ok : forallb char_ok (map N.of_nat (seq 0 256)) = true.
Proof. by vm_compute. Qed.

Lemma latin1_char char :
  (char < 256)%N →
  length (char_bits char) = 8%nat ∧
  is_bits (char_bits char) = true ∧
  byte_char (char_bits char) = Some char.
Proof.
  intros Hc.
  assert (Hok : char_ok char = true).
  { apply (proj1 (forallb_forall _ _) latin1_chars_ok).
    rewrite <- (N2Nat.id char). apply in_map, in_seq. lia. }
  unfold char_ok in Hok.
  apply andb_prop in Hok as [[Hlen Hbits]%andb_prop Hdec].
  apply Nat.eqb_eq in Hlen. apply bool_decide_eq_true in Hdec. done.
Qed.

Lemma is_latin1_cons char text :
  is_latin1 (char :: text) = true → (char < 256)%N ∧ is_latin1 text = true.
Proof. intros [Hc Ht]%andb_prop. split; [by apply N.ltb_lt|done]. Qed.

Lemma text_to_bits_latin1 text :
  is_latin1 text = true →
  length (text_to_bits text) = (8 * length text)%nat ∧
  is_bits (text_to_bits text) = true.
Proof.
  induction text as [|char text IH]; [done|].
  intros [Hc Ht]%is_latin1_cons.
  destruct (latin1_char char Hc) as (Hlen & Hbits & _), (IH Ht) as [IH1 IH2].
  unfold text_to_bits in *. cbn [flat_map]. split.
  - rewrite length_app, Hlen, IH1. cbn [length]. lia.
  - unfold is_bits in *. by rewrite forallb_app, Hbits, IH2.
Qed.

Lemma bits_to_text_aligned bits n :
  length bits = (8 * n)%nat → bits_to_text bits = mapM byte_char (chunks 8 bits).
Proof.
  intros Hlen. unfold bits_to_text.
  replace (length bits mod 8)%nat with 0%nat
    by (rewrite Hlen, Nat.mul_comm; symmetry; apply Nat.Div0.mod_mul).
  rewrite Nat.sub_0_r.
  by replace (slice bits 0 (length bits)) with bits
    by (symmetry; apply (slice_short bits (length bits)); lia).
Qed.

Lemma bits_to_text_to_bits text :
  is_latin1 text = true → bits_to_text (text_to_bits text) = Some text.
Proof.
  intros Ht.
  rewrite (bits_to_text_aligned _ (length text))
    by apply (text_to_bits_latin1 text Ht).
  induction text as [|char text IH]; [done|].
  apply is_latin1_cons in Ht as [Hc Ht].
  destruct (latin1_char char Hc) as (Hlen & _ & Hchar).
  unfold text_to_bits in *. cbn [flat_map].
  rewrite chunks_app by (done || lia). cbn [mapM].
  by rewrite Hchar, (IH Ht).
Qed.

Lemma hamming_roundtrip n : ∀ bits,
  length bits = (4 * n)%nat → is_bits bits = true →
  hamming_decode (hamming_encode bits) = bits.
Proof.
  induction n as [|n IH]; intros bits Hlen Hbits.
  - by destruct bits.
  - destruct bits as [|d1 [|d2 [|d3 [|d4 rest]]]]; [simpl in Hlen; lia..|].
    change (d1 :: d2 :: d3 :: d4 :: rest) with ([d1; d2; d3; d4] ++ rest) in *.
    apply is_bits_app in Hbits as [Hd Hrest].
    rewrite hamming_encode_app by done. unfold hamming_decode.
    rewrite hamming_decode_run_app by done. cbn [snd].
    fold (hamming_decode (hamming_encode rest)).
    rewrite IH by (rewrite ?length_app in Hlen; simpl in Hlen; lia || done).
    f_equal. split_bits; reflexivity.
Qed.

(** X3. The text path without modulation and channel returns every
    message of characters below U+0100 unchanged. *)
Lemma text_roundtrip_latin1 text :
  is_latin1 text = true → text_roundtrip text = Some text.
Proof.
  intros Ht. unfold text_roundtrip.
  destruct (text_to_bits_latin1 text Ht) as [Hlen Hbits].
  rewrite (hamming_roundtrip (2 * length text)) by (lia || done).
  by apply bits_to_text_to_bits.
Qed.

(** C7. [text_to_bits] gives a character above U+00FF more than 8 bits:
    U+0100 becomes the nine bits 100000000, so the output is not 8 bits
    per character. *)
Theorem text_to_bits_wide_char :
  text_to_bits [256%N] = [1; 0; 0; 0; 0; 0; 0; 0; 0] ∧
  length (text_to_bits [256%N]) ≠ (8 * length [256%N])%nat.
Proof. split; [reflexivity | by vm_compute]. Qed.

(** The message "HI" of the specification's end-to-end scenario. *)
Example text_roundtrip_HI : text_roundtrip [72%N; 73%N] = Some [72%N; 73%N].
Proof. by vm_compute. Qed.

(** The end-to-end scenario of the specification over BPSK, the channel
    left out: "HI" becomes 28 bits and is read back. *)
Example text_HI_over_bpsk :
  length (hamming_encode (text_to_bits [72%N; 73%N])) = 28%nat ∧
  (bits ← loopback BPSK (hamming_encode (text_to_bits [72%N; 73%N]));
   bits_to_text (hamming_decode bits)) = Some [72%N; 73%N].
Proof. by vm_compute. Qed.

(** C1. The text path does not return a message with a character above
    U+00FF: the one-character message U+0100 comes back as U+0080, and
    the two-character message U+8000 U+8000, whose 32 bits fill whole
    bytes and whole Hamming groups, comes back as four characters. *)
Theorem text_roundtrip_wide_char :
  text_roundtrip [256%N] = Some [128%N] ∧
  text_roundtrip [256%N] ≠ Some [256%N] ∧
  length (text_to_bits [32768%N; 32768%N]) = 32%nat ∧
  text_roundtrip [32768%N; 32768%N] = Some [128%N; 0%N; 128%N; 0%N].
Proof. repeat split; try reflexivity. by vm_compute. Qed.

(** C9. The empty message gives an empty result at every stage, and no
    stage raises: [text_to_bits], the Hamming coder (which also leaves the
    empty array as it is), the three modulators and demodulators, and
    [bits_to_text]. *)
Theorem empty_input_every_stage :
  text_to_bits [] = [] ∧
  hamming_encode [] = [] ∧
  hamming_decode [] = [] ∧
  hamming_decode_arg [] = [] ∧
  bpsk_modulate [] = [] ∧ bpsk_demodulate [] = [] ∧
  qpsk_modulate [] = [] ∧ qpsk_demodulate [] = [] ∧
  qam16_modulate [] = Some [] ∧ qam16_demodulate [] = [] ∧
  (∀ s, loopback s [] = Some []) ∧
  bits_to_text [] = Some [] ∧
  text_roundtrip [] = Some [].
Proof. repeat split; try reflexivity. intros []; reflexivity. Qed.

End Text.

(** ** Channel *)

Section Channel.






End Channel.

(** ** More on the Hamming coder *)

Section HammingBlocks.
Import Py PyFacts.

Lemma land_1_odd x : Z.land x 1 = Z.b2z (Z.odd x).
Proof.
  pose proof (Z.land_ones x 1 ltac:(lia)) as H.
  change (Z.ones 1) with 1 in H. change (2 ^ 1) with 2 in H.
  by rewrite H, <- Z.bit0_mod, Z.bit0_odd.
Qed.

Lemma odd_lxor a b : Z.odd (Z.lxor a b) = xorb (Z.odd a) (Z.odd b).
Proof. by rewrite <- !Z.bit0_odd, Z.lxor_spec. Qed.

Lemma odd_lxor_1 a : Z.odd (Z.lxor a 1) = negb (Z.odd a).
Proof. rewrite odd_lxor. by destruct (Z.odd a). Qed.

Lemma error_pos_odd a1 a2 a3 a4 a5 a6 a7 :
  error_pos [a1; a2; a3; a4; a5; a6; a7] =
  syndrome_of (Z.odd a1) (Z.odd a2) (Z.odd a3) (Z.odd a4)
              (Z.odd a5) (Z.odd a6) (Z.odd a7).
Proof. unfold error_pos, syndrome_of. by rewrite !land_1_odd, !odd_lxor. Qed.

Lemma decode_at_block a1 a2 a3 a4 a5 a6 a7 :
  let b := [a1; a2; a3; a4; a5; a6; a7] in
  decode_at b 0 =
  (let e := error_pos b in
   let b' := if negb (e =? 0) && (e <=? 7)
             then alter (λ v, Z.lxor v 1) (Z.to_nat (e - 1)) b else b in
   (b', [item b' 2; item b' 4; item b' 5; item b' 6])).
Proof. reflexivity. Qed.

(** After its iteration a block has syndrome 0. *)
Lemma decode_at_corrected b :
  length b = 7%nat → error_pos (fst (decode_at b 0)) = 0.
Proof.
  intros Hb. open_list b Hb. rewrite decode_at_block. cbv zeta. cbn [fst].
  rewrite error_pos_odd.
  destruct (Z.odd z) eqn:H1, (Z.odd z0) eqn:H2, (Z.odd z1) eqn:H3,
    (Z.odd z2) eqn:H4, (Z.odd z3) eqn:H5, (Z.odd z4) eqn:H6, (Z.odd z5) eqn:H7;
    match goal with
    | |- context [syndrome_of ?o1 ?o2 ?o3 ?o4 ?o5 ?o6 ?o7] =>
        let v := eval vm_compute in (syndrome_of o1 o2 o3 o4 o5 o6 o7) in
        change (syndrome_of o1 o2 o3 o4 o5 o6 o7) with v
    end;
    cbn -[Z.lxor error_pos];
    try match goal with
    | |- context [Z.to_nat ?e] =>
        let v := eval vm_compute in (Z.to_nat e) in change (Z.to_nat e) with v
    end;
    cbn [alter list_alter];
    rewrite error_pos_odd, ?odd_lxor_1, ?H1, ?H2, ?H3, ?H4, ?H5, ?H6, ?H7;
    reflexivity.
Qed.

Lemma decode_at_out b :
  length b = 7%nat →
  snd (decode_at b 0) =
  [item (fst (decode_at b 0)) 2; item (fst (decode_at b 0)) 4;
   item (fst (decode_at b 0)) 5; item (fst (decode_at b 0)) 6].
Proof. intros Hb. open_list b Hb. reflexivity. Qed.

(** A block with syndrome 0 is read and left alone. *)
Lemma decode_at_clean b :
  length b = 7%nat → error_pos b = 0 →
  decode_at b 0 = (b, [item b 2; item b 4; item b 5; item b 6]).
Proof.
  intros Hb He. open_list b Hb. rewrite decode_at_block. cbv zeta.
  by rewrite He.
Qed.

Lemma decode_at_unchanged_iff b :
  length b = 7%nat → fst (decode_at b 0) = b ↔ error_pos b = 0.
Proof.
  intros Hb. split; [|intros He; by rewrite decode_at_clean].
  pose proof (error_pos_range b) as Hr. revert Hr.
  open_list b Hb. rewrite decode_at_block. cbv zeta. cbn [fst].
  set (e := error_pos _). intros Hr.
  destruct (Z.eqb_spec e 0) as [|Hne]; [done|].
  destruct (Z.leb_spec e 7); [|lia]. cbn [negb andb].
  intros Heq. apply alter_lxor_ne in Heq; [done|simpl; lia].
Qed.

(** The encoder's blocks have syndrome 0, whatever integers it is given. *)
Lemma odd_land_1 x : Z.odd (Z.land x 1) = Z.odd x.
Proof. rewrite <- !Z.bit0_odd, Z.land_spec. simpl. apply andb_true_r. Qed.

Lemma encode_group_clean d1 d2 d3 d4 :
  error_pos (encode_group [d1; d2; d3; d4]) = 0.
Proof.
  unfold encode_group. rewrite error_pos_odd, !odd_land_1, !odd_lxor.
  by destruct (Z.odd d1), (Z.odd d2), (Z.odd d3), (Z.odd d4).
Qed.

Lemma decode_at_encode_group d :
  length d = 4%nat → decode_at (encode_group d) 0 = (encode_group d, d).
Proof.
  intros Hd. open_list d Hd.
  rewrite decode_at_clean by (done || apply encode_group_clean). done.
Qed.

Lemma pad4_length d : (length d ≤ 4)%nat → length (pad4 d) = 4%nat.
Proof. intros H. unfold pad4. rewrite length_app, length_replicate. lia. Qed.

(** The encoder takes the first group, padded, and goes on with the
    rest. *)
Lemma hamming_encode_step l :
  l ≠ [] →
  hamming_encode l = encode_group (pad4 (take 4 l)) ++ hamming_encode (drop 4 l).
Proof.
  intros Hl. destruct (Nat.lt_ge_cases (length l) 4) as [Hlt | Hge].
  - rewrite take_ge, drop_ge by lia. rewrite hamming_encode_nil, app_nil_r.
    apply hamming_encode_short; [|done]. destruct l; [done|simpl; lia].
  - rewrite <- (take_drop 4 l) at 1.
    rewrite hamming_encode_app by (rewrite length_take; lia).
    by rewrite pad4_full by (rewrite length_take; lia).
Qed.

Lemma encode_group_length d : length d = 4%nat → length (encode_group d) = 7%nat.
Proof. intros Hd. by open_list d Hd. Qed.

Lemma pad_len_small k n : (0 < n)%nat → (n < k)%nat → pad_len k n = (k - n)%nat.
Proof.
  intros H0 Hk. unfold pad_len. rewrite (Nat.mod_small n k) by done.
  apply Nat.mod_small. lia.
Qed.

Lemma pad_len_0 k : pad_len k 0 = 0%nat.
Proof.
  unfold pad_len. destruct k as [|k]; [done|].
  rewrite Nat.Div0.mod_0_l, Nat.sub_0_r. apply Nat.Div0.mod_same.
Qed.

Lemma pad_len_add k n : pad_len k (k + n) = pad_len k n.
Proof.
  unfold pad_len. replace (k + n)%nat with (n + 1 * k)%nat by lia.
  by rewrite Nat.Div0.mod_add.
Qed.

(** What is left of a padded first group and the rest. *)
Lemma pad4_take_drop l :
  l ≠ [] →
  pad4 (take 4 l) ++ drop 4 l ++ replicate (pad_len 4 (length (drop 4 l))) 0
  = l ++ replicate (pad_len 4 (length l)) 0.
Proof.
  intros Hl. destruct (Nat.lt_ge_cases (length l) 4) as [Hlt | Hge].
  - rewrite take_ge, drop_ge by lia. cbn [length app].
    rewrite pad_len_0, pad_len_small by (destruct l; simpl in *; done || lia).
    unfold pad4. by rewrite app_nil_r.
  - rewrite pad4_full by (rewrite length_take; lia).
    rewrite app_assoc, take_drop. f_equal. f_equal.
    rewrite length_drop.
    replace (length l) with (4 + (length l - 4))%nat at 2 by lia.
    by rewrite pad_len_add.
Qed.

Lemma hamming_decode_run_nil : hamming_decode_run [] = ([], []).
Proof. done. Qed.

(** Decoding what the encoder made: nothing is corrected, and the data
    comes back with the zeros the encoder filled in. *)
Lemma hamming_decode_run_encode l :
  hamming_decode_run (hamming_encode l) =
  (hamming_encode l, l ++ replicate (pad_len 4 (length l)) 0).
Proof.
  remember (length l) as n eqn:Hn. revert l Hn.
  induction n as [n IH] using lt_wf_ind. intros l ->.
  destruct (decide (l = [])) as [-> | Hl]; [done|].
  rewrite hamming_encode_step by done.
  rewrite hamming_decode_run_app
    by (apply encode_group_length, pad4_length; rewrite length_take; lia).
  rewrite decode_at_encode_group by (apply pad4_length; rewrite length_take; lia).
  cbn [fst snd].
  rewrite (IH (length (drop 4 l))) by (rewrite ?length_drop; destruct l; simpl in *; done || lia).
  cbn [fst snd]. f_equal. by apply pad4_take_drop.
Qed.

(** X4. For every integer array, [hamming_decode] returns what
    [hamming_encode] was given, followed by the zeros that filled the last
    group, and leaves the encoded array unchanged. *)
Theorem hamming_decode_encode data_bits :
  hamming_decode (hamming_encode data_bits) =
    data_bits ++ replicate (pad_len 4 (length data_bits)) 0 ∧
  hamming_decode_arg (hamming_encode data_bits) = hamming_encode data_bits.
Proof.
  unfold hamming_decode, hamming_decode_arg.
  by rewrite hamming_decode_run_encode.
Qed.

End HammingBlocks.

Section HammingStreams.
Import Py PyFacts.

Lemma all_blocks_short P l : (length l < 7)%nat → all_blocks P l.
Proof. intros Hl j Hj. lia. Qed.

Lemma all_blocks_app P b rest :
  length b = 7%nat → all_blocks P (b ++ rest) ↔ P b ∧ all_blocks P rest.
Proof.
  intros Hb. split.
  - intros H. split.
    + specialize (H 0%nat). rewrite length_app, Hb in H.
      change (7 * 0)%nat with 0%nat in H.
      rewrite (slice_head b rest 7 Hb) in H. apply H. lia.
    + intros j Hj. specialize (H (S j)). rewrite length_app, Hb in H.
      replace (7 * S j)%nat with (length b + 7 * j)%nat in H by lia.
      replace (length b + 7 * j + 7)%nat with (length b + (7 * j + 7))%nat in H by lia.
      rewrite slice_app_shift in H. apply H. lia.
  - intros [Hhead Hrest] j Hj. rewrite length_app, Hb in Hj.
    destruct j as [|j].
    + change (7 * 0)%nat with 0%nat. by rewrite (slice_head b rest 7 Hb).
    + replace (7 * S j)%nat with (length b + 7 * j)%nat by lia.
      replace (length b + 7 * j + 7)%nat with (length b + (7 * j + 7))%nat by lia.
      rewrite slice_app_shift. apply Hrest. lia.
Qed.

(** X8. [hamming_decode] leaves its argument as it was exactly when every
    full block of it has syndrome 0. *)
Theorem hamming_decode_arg_unchanged_iff encoded_bits :
  hamming_decode_arg encoded_bits = encoded_bits ↔
  all_blocks (λ block, error_pos block = 0) encoded_bits.
Proof.
  unfold hamming_decode_arg.
  pattern encoded_bits; revert encoded_bits; apply (chunk_ind 7);
    [lia | intros l Hshort | intros b rest Hb IH].
  - rewrite hamming_decode_run_short by done. split; [|done].
    intros _. by apply all_blocks_short.
  - rewrite hamming_decode_run_app, all_blocks_app by done. cbn [fst].
    rewrite <- IH, <- (decode_at_unchanged_iff b Hb). split.
    + intros Heq. apply app_inj_1 in Heq; [done|]. by rewrite decode_at_length.
    + by intros [-> ->].
Qed.

(** X9. After [hamming_decode] the caller's array has the length it had,
    every full block of it has syndrome 0, and the entries behind the last
    full block are the ones passed in. *)
Theorem hamming_decode_arg_corrected encoded_bits :
  length (hamming_decode_arg encoded_bits) = length encoded_bits ∧
  all_blocks (λ block, error_pos block = 0) (hamming_decode_arg encoded_bits) ∧
  drop (7 * (length encoded_bits / 7)) (hamming_decode_arg encoded_bits) =
    drop (7 * (length encoded_bits / 7)) encoded_bits.
Proof.
  unfold hamming_decode_arg.
  pattern encoded_bits; revert encoded_bits; apply (chunk_ind 7);
    [lia | intros l Hshort | intros b rest Hb (IH1 & IH2 & IH3)].
  - rewrite hamming_decode_run_short by done. cbn [fst].
    split; [done|]. split; [by apply all_blocks_short|done].
  - rewrite hamming_decode_run_app by done. cbn [fst].
    assert (Hb' : length (fst (decode_at b 0)) = 7%nat)
      by (by rewrite decode_at_length).
    split; [by rewrite !length_app, IH1, Hb', Hb|].
    split; [apply all_blocks_app; [done|]; split; [by apply decode_at_corrected|done]|].
    assert (Hq : (length (b ++ rest) / 7 = 1 + length rest / 7)%nat).
    { rewrite length_app, Hb.
      change 7%nat with (1 * 7)%nat at 1. by rewrite Nat.div_add_l. }
    rewrite Hq.
    replace (7 * (1 + length rest / 7))%nat
      with (length (fst (decode_at b 0)) + 7 * (length rest / 7))%nat at 1 by lia.
    replace (7 * (1 + length rest / 7))%nat
      with (length b + 7 * (length rest / 7))%nat by lia.
    by rewrite !drop_app_add'.
Qed.

(** X10. Decoding the array [hamming_decode] has corrected gives the same
    bits again and changes nothing more. *)
Theorem hamming_decode_idempotent encoded_bits :
  hamming_decode (hamming_decode_arg encoded_bits) = hamming_decode encoded_bits ∧
  hamming_decode_arg (hamming_decode_arg encoded_bits) = hamming_decode_arg encoded_bits.
Proof.
  unfold hamming_decode, hamming_decode_arg.
  pattern encoded_bits; revert encoded_bits; apply (chunk_ind 7);
    [lia | intros l Hshort | intros b rest Hb [IH1 IH2]].
  - rewrite (hamming_decode_run_short l) by done. cbn [fst snd].
    by rewrite (hamming_decode_run_short l).
  - rewrite (hamming_decode_run_app b) by done. cbn [fst snd].
    assert (Hb' : length (fst (decode_at b 0)) = 7%nat)
      by (by rewrite decode_at_length).
    rewrite hamming_decode_run_app by done. cbn [fst snd].
    rewrite decode_at_clean by (done || by apply decode_at_corrected).
    cbn [fst snd]. rewrite IH1, IH2, <- decode_at_out by done. done.
Qed.

(** Blocks are decoded one by one. *)
Lemma hamming_decode_run_blocks m : ∀ l t,
  length l = (7 * m)%nat →
  hamming_decode_run (l ++ t) =
  (fst (hamming_decode_run l) ++ fst (hamming_decode_run t),
   snd (hamming_decode_run l) ++ snd (hamming_decode_run t)).
Proof.
  induction m as [|m IH]; intros l t Hl.
  - destruct l; [|simpl in Hl; lia]. cbn [app]. rewrite hamming_decode_run_nil.
    by destruct (hamming_decode_run t).
  - rewrite <- (take_drop 7 l).
    assert (Hb : length (take 7 l) = 7%nat) by (rewrite length_take; lia).
    rewrite <- app_assoc, hamming_decode_run_app by done.
    rewrite (hamming_decode_run_app (take 7 l) (drop 7 l)) by done. cbn [fst snd].
    rewrite IH by (rewrite length_drop; lia). cbn [fst snd].
    by rewrite !app_assoc.
Qed.

Lemma hamming_encode_groups m : ∀ l t,
  length l = (4 * m)%nat →
  hamming_encode (l ++ t) = hamming_encode l ++ hamming_encode t.
Proof.
  induction m as [|m IH]; intros l t Hl.
  - destruct l; [done|simpl in Hl; lia].
  - rewrite <- (take_drop 4 l).
    assert (Hb : length (take 4 l) = 4%nat) by (rewrite length_take; lia).
    rewrite <- app_assoc, hamming_encode_app by done.
    rewrite (hamming_encode_app (take 4 l) (drop 4 l)) by done.
    rewrite IH by (rewrite length_drop; lia). by rewrite app_assoc.
Qed.

Lemma hamming_encode_length_groups m : ∀ l,
  length l = (4 * m)%nat → length (hamming_encode l) = (7 * m)%nat.
Proof.
  induction m as [|m IH]; intros l Hl.
  - destruct l; [done|simpl in Hl; lia].
  - rewrite <- (take_drop 4 l).
    assert (Hb : length (take 4 l) = 4%nat) by (rewrite length_take; lia).
    rewrite hamming_encode_app, length_app, encode_group_length by done.
    rewrite IH by (rewrite length_drop; lia). lia.
Qed.

Lemma pad_len_multiple k m : pad_len k (k * m) = 0%nat.
Proof.
  unfold pad_len. destruct k as [|k]; [done|].
  rewrite Nat.mul_comm, Nat.Div0.mod_mul, Nat.sub_0_r. apply Nat.Div0.mod_same.
Qed.

(** X5. A message can be coded piece by piece: behind a whole number of
    4-bit groups the encoder starts afresh, and the decoder returns the
    first piece and goes on with whatever follows its code. *)
Theorem hamming_stream_split l t code :
  (length l mod 4 = 0)%nat →
  hamming_encode (l ++ t) = hamming_encode l ++ hamming_encode t ∧
  hamming_decode (hamming_encode l ++ code) = l ++ hamming_decode code.
Proof.
  intros Hl. apply Nat.Div0.div_exact in Hl. split.
  - by apply (hamming_encode_groups _ _ _ Hl).
  - unfold hamming_decode.
    rewrite (hamming_decode_run_blocks (length l / 4))
      by (by apply hamming_encode_length_groups).
    rewrite hamming_decode_run_encode. cbn [snd].
    by rewrite Hl, pad_len_multiple, app_nil_r.
Qed.

Lemma hamming_stream_split_witness :
  hamming_encode ([1; 0; 1; 1] ++ [0; 1]) = hamming_encode [1; 0; 1; 1] ++ hamming_encode [0; 1] ∧
  hamming_decode (hamming_encode [1; 0; 1; 1] ++ [1; 1; 1; 0; 0; 0; 0; 1]) =
    [1; 0; 1; 1] ++ hamming_decode [1; 1; 1; 0; 0; 0; 0; 1].
Proof. apply (hamming_stream_split [1; 0; 1; 1] [0; 1] [1; 1; 1; 0; 0; 0; 0; 1]). reflexivity. Defined.

(** One inverted bit in a block the encoder made of bits: the iteration
    restores the block and reads the data. *)
Lemma decode_at_flipped d k :
  length d = 4%nat → is_bits d = true → (k < 7)%nat →
  decode_at (flip_bit k (encode_group d)) 0 = (encode_group d, d).
Proof.
  intros Hd Hbits Hk. open_list d Hd.
  assert (Hcases : k ∈ [0; 1; 2; 3; 4; 5; 6]%nat)
    by (rewrite !elem_of_cons; lia).
  split_bits;
    repeat (apply elem_of_cons in Hcases as [-> | Hcases]; [by vm_compute|]);
    by apply elem_of_nil in Hcases.
Qed.

Lemma corrupt_nil errs : corrupt errs [] = [].
Proof. induction errs as [|[k|] errs IH]; [done|..]; cbn; by rewrite IH. Qed.

Lemma is_bits_pad4 d : is_bits d = true → is_bits (pad4 d) = true.
Proof.
  intros H. unfold pad4, is_bits in *. rewrite forallb_app, H. cbn [andb].
  by induction (4 - length d)%nat.
Qed.

Lemma is_bits_take n l : is_bits l = true → is_bits (take n l) = true.
Proof.
  intros H. rewrite <- (take_drop n l) in H. by apply is_bits_app in H as [? _].
Qed.

Lemma is_bits_drop n l : is_bits l = true → is_bits (drop n l) = true.
Proof.
  intros H. rewrite <- (take_drop n l) in H. by apply is_bits_app in H as [_ ?].
Qed.

Lemma hamming_decode_run_corrupt errs : ∀ bits,
  is_bits bits = true → errs_ok errs = true →
  hamming_decode_run (corrupt errs (hamming_encode bits)) =
  hamming_decode_run (hamming_encode bits).
Proof.
  induction errs as [|e errs IH]; intros bits Hbits Herrs; [done|].
  apply andb_prop in Herrs as [He Herrs].
  destruct (decide (bits = [])) as [-> | Hne].
  { cbn. rewrite corrupt_nil. by destruct e. }
  assert (Hd : length (pad4 (take 4 bits)) = 4%nat)
    by (apply pad4_length; rewrite length_take; lia).
  assert (Hcw : length (encode_group (pad4 (take 4 bits))) = 7%nat)
    by (by apply encode_group_length).
  rewrite hamming_encode_step by done. cbn [corrupt].
  rewrite take_app_length', drop_app_length' by done.
  rewrite (hamming_decode_run_app (encode_group _)) by done.
  rewrite decode_at_encode_group by done. cbn [fst snd].
  rewrite <- (IH (drop 4 bits)) by (done || by apply is_bits_drop).
  destruct e as [k|].
  - rewrite hamming_decode_run_app by (unfold flip_bit; by rewrite length_alter).
    rewrite decode_at_flipped;
      [done | done | by apply is_bits_pad4, is_bits_take | by apply Nat.ltb_lt].
  - rewrite hamming_decode_run_app by done.
    by rewrite decode_at_encode_group.
Qed.

(** X6. Whatever bit sequence was encoded, with at most one inverted bit in
    each 7-bit block of the stream [hamming_decode] returns the data (and
    the zeros of the last group) as if nothing had happened, and the
    caller's array ends up as the stream that was sent. *)
Theorem hamming_corrects_one_error_per_block bits errs :
  is_bits bits = true → errs_ok errs = true →
  hamming_decode (corrupt errs (hamming_encode bits)) =
    bits ++ replicate (pad_len 4 (length bits)) 0 ∧
  hamming_decode_arg (corrupt errs (hamming_encode bits)) = hamming_encode bits.
Proof.
  intros Hbits Herrs. unfold hamming_decode, hamming_decode_arg.
  by rewrite hamming_decode_run_corrupt, hamming_decode_run_encode.
Qed.

Lemma hamming_corrects_one_error_per_block_witness :
  hamming_decode (corrupt [Some 2%nat; None; Some 6%nat]
                    (hamming_encode [1; 0; 1; 1; 0; 0; 1; 0; 1; 1])) =
    [1; 0; 1; 1; 0; 0; 1; 0; 1; 1] ++ replicate (pad_len 4 10) 0 ∧
  hamming_decode_arg (corrupt [Some 2%nat; None; Some 6%nat]
                        (hamming_encode [1; 0; 1; 1; 0; 0; 1; 0; 1; 1])) =
    hamming_encode [1; 0; 1; 1; 0; 0; 1; 0; 1; 1].
Proof.
  apply (hamming_corrects_one_error_per_block
           [1; 0; 1; 1; 0; 0; 1; 0; 1; 1] [Some 2%nat; None; Some 6%nat]);
    reflexivity.
Defined.

(** X7. Two inverted bits in one block are never repaired: for every data
    nibble and every two positions, [hamming_decode] returns four bits
    that differ from the nibble. *)
Theorem hamming_double_error_miscorrected d1 d2 d3 d4 i j :
  is_bits [d1; d2; d3; d4] = true → (i < 7)%nat → (j < 7)%nat → i ≠ j →
  hamming_decode (flip_bit i (flip_bit j (hamming_encode [d1; d2; d3; d4])))
  ≠ [d1; d2; d3; d4].
Proof.
  intros Hbits Hi Hj Hij.
  assert (Hci : i ∈ [0; 1; 2; 3; 4; 5; 6]%nat) by (rewrite !elem_of_cons; lia).
  assert (Hcj : j ∈ [0; 1; 2; 3; 4; 5; 6]%nat) by (rewrite !elem_of_cons; lia).
  split_bits;
    repeat (apply elem_of_cons in Hci as [-> | Hci];
            [repeat (apply elem_of_cons in Hcj as [-> | Hcj];
                     [by (done || vm_compute)|]);
             by apply elem_of_nil in Hcj|]);
    by apply elem_of_nil in Hci.
Qed.

Lemma hamming_double_error_miscorrected_witness :
  hamming_decode (flip_bit 0 (flip_bit 1 (hamming_encode [1; 0; 1; 1])))
  ≠ [1; 0; 1; 1].
Proof.
  apply (hamming_double_error_miscorrected 1 0 1 1 0 1); [reflexivity | lia | lia | lia].
Defined.

End HammingStreams.

(** ** More on the modulators *)

Section ModemMargin.
Import Py PyFacts.

Lemma Qlt_bool_true x y : Qlt_bool x y = true ↔ (x < y)%Q.
Proof.
  unfold Qlt_bool. rewrite negb_true_iff, <- not_true_iff_false, Qle_bool_iff.
  split; [apply Qnot_le_lt | apply Qlt_not_le].
Qed.

Lemma Qlt_bool_false x y : Qlt_bool x y = false ↔ (y <= x)%Q.
Proof.
  unfold Qlt_bool. rewrite negb_false_iff. apply Qle_bool_iff.
Qed.

Lemma within1_spec x y : within1 x y = true ↔ (x - 1 < y ∧ y < x + 1)%Q.
Proof.
  unfold within1. rewrite Qlt_bool_true, Qabs_Qlt_condition.
  split; intros [? ?]; split; Lqa.lra.
Qed.

Lemma within1_refl x : within1 x x = true.
Proof. apply within1_spec. split; Lqa.lra. Qed.

Lemma close_refl s : close s s = true.
Proof. unfold close. by rewrite !within1_refl. Qed.

Lemma within_margin_refl sig : within_margin sig sig.
Proof.
  unfold within_margin. induction (as_complex sig); constructor; [apply close_refl|done].
Qed.

(** One BPSK value, moved by less than 1. *)
Lemma bpsk_bit_margin b r :
  is_bit b = true → within1 (2 * inject_Z b - 1) r = true →
  (if Qle_bool 0 r then 1 else 0) = b.
Proof.
  intros [-> | ->]%is_bit_cases [H1 H2]%within1_spec; unfold inject_Z in *.
  - destruct (Qle_bool 0 r) eqn:Hr; [|done].
    apply Qle_bool_iff in Hr. Lqa.lra.
  - destruct (Qle_bool 0 r) eqn:Hr; [done|].
    assert (Hle : (0 <= r)%Q) by Lqa.lra.
    apply Qle_bool_iff in Hle. congruence.
Qed.

Lemma sign_bit_margin b r :
  is_bit b = true → within1 (inject_Z (if b =? 1 then 1 else -1)) r = true →
  (if Qle_bool 0 r then 1 else 0) = b.
Proof.
  intros [-> | ->]%is_bit_cases [H1 H2]%within1_spec; cbn in H1, H2;
    unfold inject_Z in *.
  - destruct (Qle_bool 0 r) eqn:Hr; [|done].
    apply Qle_bool_iff in Hr. Lqa.lra.
  - destruct (Qle_bool 0 r) eqn:Hr; [done|].
    assert (Hle : (0 <= r)%Q) by Lqa.lra.
    apply Qle_bool_iff in Hle. congruence.
Qed.

Lemma Qabs_lt_2_false x : Qlt_bool (Qabs x) 2 = false ↔ (x <= -2 ∨ 2 <= x)%Q.
Proof.
  rewrite Qlt_bool_false. split.
  - pattern (Qabs x). apply Qabs_case; intros; [right | left]; Lqa.lra.
  - pattern (Qabs x). apply Qabs_case; intros ? [?|?]; Lqa.lra.
Qed.

Lemma Qabs_lt_2_true x : Qlt_bool (Qabs x) 2 = true ↔ (-2 < x ∧ x < 2)%Q.
Proof.
  rewrite Qlt_bool_true, Qabs_Qlt_condition. split; intros [? ?]; split; Lqa.lra.
Qed.

(** One 16-QAM axis, moved by less than 1. *)
Lemma qam16_axis_margin a b v x :
  is_bits [a; b] = true → mapping !! (a, b) = Some v →
  within1 (inject_Z v) x = true →
  (if Qlt_bool 0 x then 1 else 0) = a ∧
  (if Qlt_bool (Qabs x) 2 then 1 else 0) = b.
Proof.
  intros Hbits Hv [H1 H2]%within1_spec.
  split_bits; vm_compute in Hv; injection Hv as <-; unfold inject_Z in *.
  - assert (Hs : Qlt_bool 0 x = false) by (apply Qlt_bool_false; Lqa.lra).
    assert (Hm : Qlt_bool (Qabs x) 2 = false) by (apply Qabs_lt_2_false; left; Lqa.lra).
    by rewrite Hs, Hm.
  - assert (Hs : Qlt_bool 0 x = false) by (apply Qlt_bool_false; Lqa.lra).
    assert (Hm : Qlt_bool (Qabs x) 2 = true) by (apply Qabs_lt_2_true; split; Lqa.lra).
    by rewrite Hs, Hm.
  - assert (Hs : Qlt_bool 0 x = true) by (apply Qlt_bool_true; Lqa.lra).
    assert (Hm : Qlt_bool (Qabs x) 2 = false) by (apply Qabs_lt_2_false; right; Lqa.lra).
    by rewrite Hs, Hm.
  - assert (Hs : Qlt_bool 0 x = true) by (apply Qlt_bool_true; Lqa.lra).
    assert (Hm : Qlt_bool (Qabs x) 2 = true) by (apply Qabs_lt_2_true; split; Lqa.lra).
    by rewrite Hs, Hm.
Qed.

Lemma bpsk_margin bits : ∀ received,
  is_bits bits = true →
  Forall2 (λ s r, close s r = true)
    (map (λ x, Complex x 0) (bpsk_modulate bits)) received →
  bpsk_demodulate (map re received) = bits.
Proof.
  induction bits as [|b bits IH]; intros received Hbits Hclose.
  - by inversion Hclose.
  - apply andb_prop in Hbits as [Hb Hbits].
    cbn [bpsk_modulate map] in Hclose.
    inversion Hclose as [|s r ss rs Hsr Hrest]; subst.
    apply andb_prop in Hsr as [Hre _]. cbn [re] in Hre.
    unfold bpsk_demodulate. cbn [map].
    rewrite (bpsk_bit_margin b (re r) Hb Hre). f_equal.
    by apply IH.
Qed.

Lemma qpsk_margin q : ∀ bits received,
  length bits = (2 * q)%nat → is_bits bits = true →
  Forall2 (λ s r, close s r = true) (qpsk_symbols bits) received →
  qpsk_demodulate received = bits.
Proof.
  induction q as [|q IH]; intros bits received Hlen Hbits Hclose.
  - destruct bits; [|simpl in Hlen; lia]. by inversion Hclose.
  - destruct bits as [|a [|b rest]]; [simpl in Hlen; lia..|].
    rewrite qpsk_symbols_cons2 in Hclose.
    inversion Hclose as [|s r ss rs Hsr Hrest]; subst.
    apply andb_prop in Hsr as [Hre Him]. cbn [re im] in Hre, Him.
    apply andb_prop in Hbits as [Ha Hbits].
    apply andb_prop in Hbits as [Hb Hbits].
    unfold qpsk_demodulate. cbn [flat_map app].
    rewrite (sign_bit_margin a (re r) Ha Hre), (sign_bit_margin b (im r) Hb Him).
    do 2 f_equal. apply IH; [simpl in Hlen; lia|done|done].
Qed.

Lemma qam16_margin q : ∀ bits symbols received,
  length bits = (4 * q)%nat → is_bits bits = true →
  qam16_symbols bits = Some symbols →
  Forall2 (λ s r, close s r = true) symbols received →
  qam16_demodulate received = bits.
Proof.
  induction q as [|q IH]; intros bits symbols received Hlen Hbits Hsym Hclose.
  - destruct bits; [|simpl in Hlen; lia].
    injection Hsym as <-. by inversion Hclose.
  - destruct bits as [|a [|b [|c [|d rest]]]]; [simpl in Hlen; lia..|].
    rewrite qam16_symbols_cons4 in Hsym.
    destruct (mapping !! (a, b)) as [I|] eqn:HI; [|done].
    destruct (mapping !! (c, d)) as [Q|] eqn:HQ; [|done].
    destruct (qam16_symbols rest) as [symbols'|] eqn:Hrest; [|done].
    cbn in Hsym. injection Hsym as <-.
    inversion Hclose as [|s r ss rs Hsr Hrs]; subst.
    apply andb_prop in Hsr as [Hre Him]. cbn [re im] in Hre, Him.
    change (a :: b :: c :: d :: rest) with ([a; b] ++ [c; d] ++ rest) in Hbits.
    apply is_bits_app in Hbits as [Hab [Hcd Hbits]%is_bits_app].
    destruct (qam16_axis_margin a b I (re r) Hab HI Hre) as [E1 E2].
    destruct (qam16_axis_margin c d Q (im r) Hcd HQ Him) as [E3 E4].
    unfold qam16_demodulate. cbn [flat_map app].
    rewrite E1, E2, E3, E4. do 4 f_equal.
    apply (IH rest symbols'); [simpl in Hlen; lia|done..].
Qed.

End ModemMargin.

Section ModemPadding.
Import Py PyFacts.

Lemma is_bits_zeros k : is_bits (replicate k 0) = true.
Proof. by induction k. Qed.

Lemma is_bits_padded bits k : is_bits (bits ++ replicate k 0) = is_bits bits.
Proof.
  unfold is_bits. rewrite forallb_app.
  change (forallb is_bit (replicate k 0)) with (is_bits (replicate k 0)).
  by rewrite is_bits_zeros, andb_true_r.
Qed.

(** The array the symbol loop of [qpsk_modulate] runs over. *)
Lemma qpsk_modulate_padded bits :
  qpsk_modulate bits = qpsk_symbols (bits ++ replicate (pad_len 2 (length bits)) 0).
Proof.
  unfold qpsk_modulate, pad_len.
  pose proof (Nat.mod_upper_bound (length bits) 2 ltac:(lia)) as Hr.
  destruct (length bits mod 2)%nat as [|[|r]]; [| |lia]; cbn.
  - by rewrite app_nil_r.
  - done.
Qed.

(** The array the symbol loop of [qam16_modulate] runs over. *)
Lemma qam16_modulate_padded bits :
  qam16_modulate bits = qam16_symbols (bits ++ replicate (pad_len 4 (length bits)) 0).
Proof.
  unfold qam16_modulate, pad_len.
  pose proof (Nat.mod_upper_bound (length bits) 4 ltac:(lia)) as Hr.
  destruct (length bits mod 4)%nat as [|[|[|[|r]]]]; [| | | |lia]; cbn;
    [by rewrite app_nil_r|done..].
Qed.

(** A padded array holds a whole number of groups. *)
Lemma padded_length k n :
  (0 < k)%nat →
  (n + pad_len k n = k * (if (n mod k =? 0)%nat then n / k else S (n / k)))%nat.
Proof.
  intros Hk. unfold pad_len.
  pose proof (Nat.div_mod_eq n k) as Hn.
  pose proof (Nat.mod_upper_bound n k ltac:(lia)) as Hr.
  destruct (Nat.eqb_spec (n mod k) 0) as [H0 | H0].
  - rewrite H0, Nat.sub_0_r, Nat.Div0.mod_same. lia.
  - rewrite (Nat.mod_small (k - n mod k) k) by lia. lia.
Qed.

Lemma ceil_div k n q :
  (0 < k)%nat → (n + pad_len k n = k * q)%nat → ((n + k - 1) / k = q)%nat.
Proof.
  intros Hk Hq. unfold pad_len in Hq.
  pose proof (Nat.mod_upper_bound n k ltac:(lia)) as Hr.
  destruct (Nat.eq_dec (n mod k)%nat 0%nat) as [H0 | H0].
  - rewrite H0, Nat.sub_0_r, Nat.Div0.mod_same in Hq.
    symmetry. apply (Nat.div_unique _ _ _ (k - 1)%nat); lia.
  - rewrite (Nat.mod_small (k - n mod k) k) in Hq by lia.
    symmetry. apply (Nat.div_unique _ _ _ (n mod k - 1)%nat); lia.
Qed.

Lemma real_part_as_complex sig : real_part sig = map re (as_complex sig).
Proof.
  destruct sig as [x|z]; [|done]. cbn. rewrite map_map. cbn.
  by rewrite map_id.
Qed.

Lemma pad_len_1 n : pad_len 1 n = 0%nat.
Proof. unfold pad_len. by rewrite Nat.mod_1_r. Qed.

Lemma demodulate_margin s bits sent received :
  is_bits bits = true →
  modulate s bits = Some sent →
  within_margin sent received →
  demodulate s received =
    bits ++ replicate (pad_len (bits_per_symbol s) (length bits)) 0.
Proof.
  intros Hbits Hsent Hclose. unfold within_margin in Hclose.
  destruct s; cbn [modulate demodulate bits_per_symbol] in *.
  - injection Hsent as <-. cbn [as_complex] in Hclose.
    rewrite pad_len_1, app_nil_r, real_part_as_complex.
    by apply bpsk_margin.
  - injection Hsent as <-. cbn [as_complex] in Hclose.
    rewrite qpsk_modulate_padded in Hclose.
    eapply qpsk_margin; [|by rewrite is_bits_padded|done].
    rewrite length_app, length_replicate. apply padded_length; lia.
  - destruct (qam16_modulate bits) as [symbols|] eqn:Hmod; [|done].
    injection Hsent as <-. cbn [as_complex] in Hclose.
    rewrite qam16_modulate_padded in Hmod.
    eapply qam16_margin; [|by rewrite is_bits_padded|done..].
    rewrite length_app, length_replicate. apply padded_length; lia.
Qed.

(** X12. With a channel that moves every symbol by less than 1 on each axis,
    each scheme's demodulator returns the bits that were modulated,
    followed by the zeros the modulator filled in. *)
Theorem demodulate_within_margin s bits sent received :
  is_bits bits = true →
  modulate s bits = Some sent →
  within_margin sent received →
  demodulate s received =
    bits ++ replicate (pad_len (bits_per_symbol s) (length bits)) 0.
Proof. apply demodulate_margin. Qed.

Lemma demodulate_within_margin_witness :
  demodulate QAM16
    (ComplexSignal [Complex (5 # 2) (3 # 2); Complex (-(7 # 2)) (-(5 # 2))]) =
  [1; 0; 1; 1; 0; 0] ++ replicate (pad_len (bits_per_symbol QAM16) (length [1; 0; 1; 1; 0; 0])) 0.
Proof.
  apply (demodulate_within_margin QAM16 [1; 0; 1; 1; 0; 0]
           (ComplexSignal [Complex 3 1; Complex (-3) (-3)])).
  - reflexivity.
  - reflexivity.
  - repeat constructor.
Defined.

(** X11. With the channel left out, each scheme returns the bits it was
    given followed by the zeros that fill the last symbol: one zero for an
    odd number of bits under QPSK, up to three under 16-QAM. *)
Theorem loopback_padded s bits :
  is_bits bits = true →
  loopback s bits =
    Some (bits ++ replicate (pad_len (bits_per_symbol s) (length bits)) 0).
Proof.
  intros Hbits. destruct s; cbn [loopback bits_per_symbol].
  - by rewrite pad_len_1, app_nil_r, bpsk_loopback.
  - rewrite qpsk_modulate_padded. f_equal.
    eapply qpsk_symbols_loopback; [|by rewrite is_bits_padded].
    rewrite length_app, length_replicate. apply padded_length; lia.
  - rewrite qam16_modulate_padded.
    eapply qam16_symbols_loopback; [|by rewrite is_bits_padded].
    rewrite length_app, length_replicate. apply padded_length; lia.
Qed.

Lemma loopback_padded_witness :
  loopback QAM16 [1; 0; 1; 1; 0] =
    Some ([1; 0; 1; 1; 0] ++ replicate (pad_len (bits_per_symbol QAM16) (length [1; 0; 1; 1; 0])) 0).
Proof. apply (loopback_padded QAM16 [1; 0; 1; 1; 0]). reflexivity. Defined.

End ModemPadding.

Section ModemErrors.
Import Py PyFacts.

(** The keys of [mapping] are the four pairs of bits. *)
Lemma mapping_Some a b v : mapping !! (a, b) = Some v → is_bits [a; b] = true.
Proof.
  unfold mapping. rewrite !lookup_insert_Some, lookup_empty.
  intros [[[= <- <-] _] | [_ [[[= <- <-] _] | [_ [[[= <- <-] _] | [_ [[[= <- <-] _] | [_ ?]]]]]]]];
    done.
Qed.

Lemma mapping_bits a b : is_bits [a; b] = true → is_Some (mapping !! (a, b)).
Proof. intros H. split_bits; vm_compute; by eexists. Qed.

Lemma qam16_symbols_Some q : ∀ bits,
  length bits = (4 * q)%nat →
  is_Some (qam16_symbols bits) ↔ is_bits bits = true.
Proof.
  induction q as [|q IH]; intros bits Hlen.
  - destruct bits; [|simpl in Hlen; lia]. by split.
  - destruct bits as [|a [|b [|c [|d rest]]]]; [simpl in Hlen; lia..|].
    rewrite qam16_symbols_cons4.
    change (a :: b :: c :: d :: rest) with ([a; b] ++ [c; d] ++ rest).
    specialize (IH rest ltac:(simpl in Hlen; lia)).
    split.
    + intros [symbols Hs].
      destruct (mapping !! (a, b)) as [I|] eqn:HI; [|done].
      destruct (mapping !! (c, d)) as [Q|] eqn:HQ; [|done].
      destruct (qam16_symbols rest) as [symbols'|]; [|done].
      apply mapping_Some in HI, HQ. unfold is_bits in *.
      rewrite !forallb_app, HI, HQ. apply IH. by eexists.
    + intros [Hab [Hcd Hrest]%is_bits_app]%is_bits_app.
      destruct (mapping_bits a b Hab) as [I ->], (mapping_bits c d Hcd) as [Q ->].
      apply IH in Hrest as [symbols' ->]. by eexists.
Qed.

(** X13. [qam16_modulate] raises the [KeyError] of its table exactly when
    the array holds an entry other than 0 and 1. *)
Theorem qam16_modulate_keyerror bits :
  qam16_modulate bits = None ↔ is_bits bits = false.
Proof.
  rewrite qam16_modulate_padded, <- (is_bits_padded bits (pad_len 4 (length bits))).
  rewrite <- not_true_iff_false, eq_None_not_Some.
  apply not_iff_compat.
  eapply qam16_symbols_Some.
  rewrite length_app, length_replicate. apply padded_length; lia.
Qed.

Lemma qpsk_symbols_length q : ∀ bits,
  length bits = (2 * q)%nat → length (qpsk_symbols bits) = q.
Proof.
  induction q as [|q IH]; intros bits Hlen.
  - destruct bits; [done|simpl in Hlen; lia].
  - destruct bits as [|a [|b rest]]; [simpl in Hlen; lia..|].
    rewrite qpsk_symbols_cons2. cbn [length]. f_equal.
    apply IH. simpl in Hlen; lia.
Qed.

Lemma qam16_symbols_length q : ∀ bits symbols,
  length bits = (4 * q)%nat → qam16_symbols bits = Some symbols →
  length symbols = q.
Proof.
  induction q as [|q IH]; intros bits symbols Hlen Hs.
  - destruct bits; [|simpl in Hlen; lia]. by injection Hs as <-.
  - destruct bits as [|a [|b [|c [|d rest]]]]; [simpl in Hlen; lia..|].
    rewrite qam16_symbols_cons4 in Hs.
    destruct (mapping !! (a, b)) as [I|]; [|done].
    destruct (mapping !! (c, d)) as [Q|]; [|done].
    destruct (qam16_symbols rest) as [symbols'|] eqn:Hrest; [|done].
    cbn in Hs. injection Hs as <-. cbn [length]. f_equal.
    apply (IH rest); [simpl in Hlen; lia|done].
Qed.

(** X14. A modulated signal has [ceil(n / k)] symbols for [n] entries and
    [k] bits per symbol. *)
Theorem modulate_symbol_count s bits sent :
  modulate s bits = Some sent →
  length (as_complex sent) =
    ((length bits + bits_per_symbol s - 1) / bits_per_symbol s)%nat.
Proof.
  intros Hsent. destruct s; cbn [modulate bits_per_symbol] in *.
  - injection Hsent as <-. cbn [as_complex].
    unfold bpsk_modulate. rewrite !length_map, Nat.div_1_r. lia.
  - injection Hsent as <-. cbn [as_complex]. rewrite qpsk_modulate_padded.
    pose proof (padded_length 2 (length bits) ltac:(lia)) as Hq.
    rewrite (ceil_div 2 _ _ ltac:(lia) Hq).
    apply qpsk_symbols_length. by rewrite length_app, length_replicate.
  - destruct (qam16_modulate bits) as [symbols|] eqn:Hmod; [|done].
    injection Hsent as <-. cbn [as_complex]. rewrite qam16_modulate_padded in Hmod.
    pose proof (padded_length 4 (length bits) ltac:(lia)) as Hq.
    rewrite (ceil_div 4 _ _ ltac:(lia) Hq).
    eapply qam16_symbols_length; [|done].
    by rewrite length_app, length_replicate.
Qed.

Lemma modulate_symbol_count_witness :
  length (as_complex (ComplexSignal [Complex 3 1; Complex (-3) (-3)])) =
    ((length [1; 0; 1; 1; 0; 0] + bits_per_symbol QAM16 - 1) / bits_per_symbol QAM16)%nat.
Proof. apply (modulate_symbol_count QAM16 [1; 0; 1; 1; 0; 0]). reflexivity. Defined.

(** The level the demodulator's two bits stand for is a nearest one. *)
Lemma qam16_axis_nearest x :
  ∃ v, mapping !! ((if Qlt_bool 0 x then 1 else 0),
                   (if Qlt_bool (Qabs x) 2 then 1 else 0)) = Some v ∧
       ∀ w, w ∈ levels → (Qabs (x - inject_Z v) <= Qabs (x - inject_Z w))%Q.
Proof.
  assert (Habs : ∀ v w : Q, (∀ y, y = x → (v <= w ∧ 2 * y <= v + w ∨ w <= v ∧ v + w <= 2 * y))%Q →
                 (Qabs (x - v) <= Qabs (x - w))%Q).
  { intros v w H. destruct (H x eq_refl) as [[? ?] | [? ?]];
      pattern (Qabs (x - w)); apply Qabs_case; intros;
      pattern (Qabs (x - v)); apply Qabs_case; intros; Lqa.lra. }
  destruct (Qlt_bool 0 x) eqn:Hs, (Qlt_bool (Qabs x) 2) eqn:Hm.
  - apply Qlt_bool_true in Hs. apply Qabs_lt_2_true in Hm as [? ?].
    exists 1. split; [by vm_compute|]. intros w Hw. unfold levels in Hw.
    rewrite !elem_of_cons in Hw. destruct Hw as [-> | [-> | [-> | [-> | []%elem_of_nil]]]];
      apply Habs; intros y ->; unfold inject_Z; Lqa.lra.
  - apply Qlt_bool_true in Hs. apply Qabs_lt_2_false in Hm.
    exists 3. split; [by vm_compute|]. intros w Hw. unfold levels in Hw.
    rewrite !elem_of_cons in Hw. destruct Hw as [-> | [-> | [-> | [-> | []%elem_of_nil]]]];
      apply Habs; intros y ->; unfold inject_Z; destruct Hm; Lqa.lra.
  - apply Qlt_bool_false in Hs. apply Qabs_lt_2_true in Hm as [? ?].
    exists (-1). split; [by vm_compute|]. intros w Hw. unfold levels in Hw.
    rewrite !elem_of_cons in Hw. destruct Hw as [-> | [-> | [-> | [-> | []%elem_of_nil]]]];
      apply Habs; intros y ->; unfold inject_Z; Lqa.lra.
  - apply Qlt_bool_false in Hs. apply Qabs_lt_2_false in Hm.
    exists (-3). split; [by vm_compute|]. intros w Hw. unfold levels in Hw.
    rewrite !elem_of_cons in Hw. destruct Hw as [-> | [-> | [-> | [-> | []%elem_of_nil]]]];
      apply Habs; intros y ->; unfold inject_Z; destruct Hm; Lqa.lra.
Qed.

(** X15. [qam16_demodulate] decides for a nearest point of the
    constellation: modulating the four bits it returns for a received
    symbol gives a point whose in-phase and quadrature amplitudes are, each
    on its axis, at least as close to the received value as any of -3, -1,
    1, 3. *)
Theorem qam16_demodulate_nearest sym :
  ∃ vI vQ : Z,
    qam16_modulate (qam16_demodulate [sym]) =
      Some [Complex (inject_Z vI) (inject_Z vQ)] ∧
    ∀ w, w ∈ levels →
      (Qabs (re sym - inject_Z vI) <= Qabs (re sym - inject_Z w))%Q ∧
      (Qabs (im sym - inject_Z vQ) <= Qabs (im sym - inject_Z w))%Q.
Proof.
  destruct (qam16_axis_nearest (re sym)) as (vI & HI & HnI).
  destruct (qam16_axis_nearest (im sym)) as (vQ & HQ & HnQ).
  exists vI, vQ. split; [|by intros w Hw; split; [apply HnI | apply HnQ]].
  unfold qam16_demodulate. cbn [flat_map app].
  set (b1 := if Qlt_bool 0 (re sym) then 1 else 0) in *.
  set (b2 := if Qlt_bool (Qabs (re sym)) 2 then 1 else 0) in *.
  set (b3 := if Qlt_bool 0 (im sym) then 1 else 0) in *.
  set (b4 := if Qlt_bool (Qabs (im sym)) 2 then 1 else 0) in *.
  change (qam16_modulate [b1; b2; b3; b4]) with (qam16_symbols [b1; b2; b3; b4]).
  rewrite qam16_symbols_cons4, HI, HQ. done.
Qed.

End ModemErrors.

(** ** The receive path *)

Section Receive.
Import Py PyFacts.

Lemma bit_choice (c : bool) : is_bit (if c then 1 else 0) = true.
Proof. by destruct c. Qed.

Lemma demodulate_is_bits s noisy :
  is_bits (demodulate s noisy) = true ∧
  length (demodulate s noisy) = (bits_per_symbol s * length (as_complex noisy))%nat.
Proof.
  destruct s; cbn [demodulate bits_per_symbol].
  - rewrite real_part_as_complex. unfold bpsk_demodulate.
    induction (as_complex noisy) as [|z zs [IH1 IH2]]; [done|].
    cbn [map is_bits forallb length]. rewrite bit_choice. split; [done|]. lia.
  - unfold qpsk_demodulate.
    induction (as_complex noisy) as [|z zs [IH1 IH2]]; [done|].
    cbn [flat_map app is_bits forallb length]. rewrite !bit_choice.
    split; [done|]. lia.
  - unfold qam16_demodulate.
    induction (as_complex noisy) as [|z zs [IH1 IH2]]; [done|].
    cbn [flat_map app is_bits forallb length]. rewrite !bit_choice.
    split; [done|]. lia.
Qed.

(** An iteration over a block of bits leaves bits in the array and reads
    bits. *)
Lemma decode_at_is_bits b :
  length b = 7%nat → is_bits b = true →
  is_bits (fst (decode_at b 0)) = true ∧ is_bits (snd (decode_at b 0)) = true.
Proof.
  intros Hb Hbits. open_list b Hb. split_bits; by vm_compute.
Qed.

Lemma hamming_decode_run_is_bits encoded_bits :
  is_bits encoded_bits = true →
  is_bits (fst (hamming_decode_run encoded_bits)) = true ∧
  is_bits (snd (hamming_decode_run encoded_bits)) = true.
Proof.
  pattern encoded_bits; revert encoded_bits; apply (chunk_ind 7);
    [lia | intros l Hshort | intros b rest Hb IH].
  - intros Hbits. by rewrite hamming_decode_run_short.
  - intros [Hbb Hrest]%is_bits_app.
    rewrite hamming_decode_run_app by done. cbn [fst snd].
    destruct (decode_at_is_bits b Hb Hbb) as [H1 H2], (IH Hrest) as [IH1 IH2].
    unfold is_bits in *. by rewrite !forallb_app, H1, H2, IH1, IH2.
Qed.

(** Eight bits are the digits of a character below U+0100. *)
Lemma byte_char_bits byte :
  length byte = 8%nat → is_bits byte = true →
  ∃ char, byte_char byte = Some char ∧ (char < 256)%N ∧ char_bits char = byte.
Proof.
  intros Hlen Hbits. open_list byte Hlen.
  split_bits; eexists; (split; [by vm_compute|]); by vm_compute.
Qed.

Lemma bits_to_text_bytes q : ∀ bits,
  length bits = (8 * q)%nat → is_bits bits = true →
  ∃ text, bits_to_text bits = Some text ∧ length text = q ∧
          is_latin1 text = true ∧ text_to_bits text = bits.
Proof.
  induction q as [|q IH]; intros bits Hlen Hbits.
  - destruct bits; [|simpl in Hlen; lia]. by exists [].
  - rewrite (bits_to_text_aligned _ _ Hlen).
    rewrite <- (take_drop 8 bits) in Hbits |- *.
    assert (Hb : length (take 8 bits) = 8%nat) by (rewrite length_take; lia).
    apply is_bits_app in Hbits as [Hbyte Hrest].
    destruct (byte_char_bits _ Hb Hbyte) as (char & Hchar & Hlt & Hback).
    destruct (IH (drop 8 bits)) as (text & Htext & Hlen' & Hlat & Hback');
      [rewrite length_drop; lia | done |].
    rewrite (bits_to_text_aligned _ q) in Htext by (rewrite length_drop; lia).
    exists (char :: text). rewrite chunks_app by (done || lia). cbn [mapM].
    rewrite Hchar, Htext. cbn. split; [done|]. split; [by rewrite Hlen'|].
    split.
    + unfold is_latin1 in *. cbn [forallb]. rewrite Hlat, andb_true_r.
      by apply N.ltb_lt.
    + unfold text_to_bits in *. cbn [flat_map]. by rewrite Hback, Hback'.
Qed.

(** [bits_to_text] reads the first [8 * floor(n / 8)] entries only. *)
Lemma bits_to_text_take bits :
  bits_to_text bits = bits_to_text (take (8 * (length bits / 8)) bits).
Proof.
  pose proof (Nat.div_mod_eq (length bits) 8) as Hn.
  pose proof (Nat.mod_upper_bound (length bits) 8 ltac:(lia)) as Hr.
  rewrite (bits_to_text_aligned (take _ bits) (length bits / 8))
    by (rewrite length_take; lia).
  unfold bits_to_text, slice. rewrite drop_0. do 3 f_equal. lia.
Qed.

(** X2. On a bit sequence [bits_to_text] does not raise: it returns one
    character below U+0100 for every whole group of 8 bits, reads nothing
    of the 1 to 7 bits that may follow, and [text_to_bits] of its result
    gives the bits it read. *)
Theorem bits_to_text_of_bits bits :
  is_bits bits = true →
  ∃ text,
    bits_to_text bits = Some text ∧
    length text = (length bits / 8)%nat ∧
    is_latin1 text = true ∧
    text_to_bits text = take (8 * (length bits / 8)) bits.
Proof.
  intros Hbits. rewrite bits_to_text_take.
  pose proof (Nat.div_mod_eq (length bits) 8) as Hn.
  apply bits_to_text_bytes; [rewrite length_take; lia | by apply is_bits_take].
Qed.

Lemma bits_to_text_of_bits_witness :
  ∃ text,
    bits_to_text [0; 1; 0; 0; 1; 0; 0; 0; 1; 1; 0] = Some text ∧
    length text = (length [0; 1; 0; 0; 1; 0; 0; 0; 1; 1; 0] / 8)%nat ∧
    is_latin1 text = true ∧
    text_to_bits text = take (8 * (length [0; 1; 0; 0; 1; 0; 0; 0; 1; 1; 0] / 8))
                          [0; 1; 0; 0; 1; 0; 0; 0; 1; 1; 0].
Proof. apply (bits_to_text_of_bits [0; 1; 0; 0; 1; 0; 0; 0; 1; 1; 0]). reflexivity. Defined.

(** X16. Whatever the channel delivers, the receive path of [main] does not
    raise: demodulation gives bits, [hamming_decode] keeps them bits, and
    [bits_to_text] returns a text of characters below U+0100. *)
Theorem receive_never_raises s noisy :
  ∃ text, receive s noisy = Some text ∧ is_latin1 text = true.
Proof.
  unfold receive, hamming_decode.
  destruct (demodulate_is_bits s noisy) as [Hbits _].
  apply hamming_decode_run_is_bits in Hbits as [_ Hdec].
  pose proof (Nat.div_mod_eq (length (hamming_decode_run (demodulate s noisy)).2) 8) as Hn.
  rewrite bits_to_text_take.
  destruct (bits_to_text_bytes (length (hamming_decode_run (demodulate s noisy)).2 / 8)
              (take (8 * (length (hamming_decode_run (demodulate s noisy)).2 / 8))
                 (hamming_decode_run (demodulate s noisy)).2))
    as (text & Htext & _ & Hlat & _);
    [rewrite length_take; lia | by apply is_bits_take |].
  by exists text.
Qed.

End Receive.

(** ** More on the text codec and the text link *)

Section TextLink.
Import Py PyFacts.

Lemma string_length_append a b :
  String.length (String.append a b) = (String.length a + String.length b)%nat.
Proof. induction a as [|c a IH]; [done|]. simpl. by rewrite IH. Qed.

Lemma list_ascii_append a b :
  list_ascii_of_string (String.append a b) =
  list_ascii_of_string a ++ list_ascii_of_string b.
Proof. induction a as [|c a IH]; [done|]. simpl. by rewrite IH. Qed.

Lemma list_ascii_length a : length (list_ascii_of_string a) = String.length a.
Proof. induction a as [|c a IH]; [done|]. simpl. by rewrite IH. Qed.

Lemma pos_bin_length p : ∀ acc,
  String.length (pos_bin p acc) = (Pos.size_nat p + String.length acc)%nat.
Proof.
  induction p as [p IH | p IH |]; intros acc; cbn; [rewrite IH..|]; cbn; lia.
Qed.

Lemma pos_bin_digits p : ∀ acc,
  is_bits (map int_of_digit (list_ascii_of_string acc)) = true →
  is_bits (map int_of_digit (list_ascii_of_string (pos_bin p acc))) = true.
Proof.
  induction p as [p IH | p IH |]; intros acc Hacc; cbn [pos_bin];
    [apply IH | apply IH |]; unfold is_bits in *; simpl; exact Hacc.
Qed.

Lemma zeros_digits k : is_bits (map int_of_digit (list_ascii_of_string (zeros k))) = true.
Proof. by induction k. Qed.

Lemma zeros_length k : String.length (zeros k) = k.
Proof. induction k as [|k IH]; [done|]. cbn. by rewrite IH. Qed.

Lemma size_nat_le p n : (Pos.size_nat p ≤ n)%nat ↔ (Pos.to_nat p < 2 ^ n)%nat.
Proof.
  revert n. induction p as [p IH | p IH |]; intros n; cbn [Pos.size_nat].
  - destruct n as [|n]; [cbn; lia|].
    rewrite Pos2Nat.inj_xI, Nat.pow_succ_r', <- Nat.succ_le_mono, IH. lia.
  - destruct n as [|n]; [pose proof (Pos2Nat.is_pos p~0); cbn; lia|].
    rewrite Pos2Nat.inj_xO, Nat.pow_succ_r', <- Nat.succ_le_mono, IH. lia.
  - destruct n as [|n]; [cbn; lia|].
    rewrite Nat.pow_succ_r'. pose proof (Nat.pow_nonzero 2 n). cbn. lia.
Qed.

(** A character takes the digits of its code point, and never fewer
    than 8. *)
Lemma char_bits_length char :
  (8 ≤ length (char_bits char))%nat ∧
  (length (char_bits char) = 8%nat ↔ (char < 256)%N).
Proof.
  unfold char_bits, ord, format_08b.
  rewrite length_map, list_ascii_length, string_length_append, zeros_length.
  destruct char as [|p]; [by cbn|]. cbn [format_b].
  rewrite pos_bin_length. cbn [String.length]. rewrite Nat.add_0_r.
  pose proof (size_nat_le p 8) as Hsz. change (2 ^ 8)%nat with 256%nat in Hsz.
  split; [lia|].
  assert ((N.pos p < 256)%N ↔ (Pos.to_nat p < 256)%nat) as -> by lia.
  rewrite <- Hsz. lia.
Qed.

Lemma char_bits_is_bits char : is_bits (char_bits char) = true.
Proof.
  unfold char_bits, ord, format_08b. rewrite list_ascii_append, map_app.
  unfold is_bits. rewrite forallb_app.
  change (forallb is_bit ?l) with (is_bits l).
  rewrite zeros_digits. cbn [andb].
  destruct char as [|p]; [done|]. by apply pos_bin_digits.
Qed.

(** X1. [text_to_bits] always returns a bit sequence with at least 8 bits
    for each character, and with exactly 8 bits for each character if and
    only if every character is below U+0100. *)
Theorem text_to_bits_length_iff text :
  is_bits (text_to_bits text) = true ∧
  (8 * length text ≤ length (text_to_bits text))%nat ∧
  (length (text_to_bits text) = (8 * length text)%nat ↔ is_latin1 text = true).
Proof.
  unfold text_to_bits, is_latin1.
  induction text as [|char text (IH1 & IH2 & IH3)]; [done|].
  cbn [flat_map forallb length].
  destruct (char_bits_length char) as [Hge Hiff].
  rewrite length_app. split; [|split].
  - pose proof (char_bits_is_bits char) as Hc.
    unfold is_bits in *. by rewrite forallb_app, IH1, Hc.
  - lia.
  - rewrite andb_true_iff, N.ltb_lt, <- Hiff, <- IH3. lia.
Qed.

Lemma is_bits_hamming_encode bits :
  is_bits bits = true → is_bits (hamming_encode bits) = true.
Proof.
  pattern bits; revert bits; apply (chunk_ind 4);
    [lia | intros bits Hshort | intros b rest Hb IH].
  - intros Hbits.
    destruct bits as [|d1 [|d2 [|d3 [|d4 bits]]]]; [done|..]; [| | |simpl in Hshort; lia];
      (rewrite hamming_encode_short by (simpl; lia)); split_bits; done.
  - intros [Hbb Hrest]%is_bits_app. rewrite hamming_encode_app by done.
    unfold is_bits in *. rewrite forallb_app, (IH Hrest), andb_true_r.
    open_list b Hb. fold (is_bits [z; z0; z1; z2]) in Hbb. split_bits; done.
Qed.

Lemma pad_len_lt k n : (0 < k)%nat → (pad_len k n < k)%nat.
Proof. intros Hk. unfold pad_len. apply Nat.mod_upper_bound. lia. Qed.

(** X17. The text link of [main] delivers the message: for every scheme and
    every message of characters below U+0100, if the channel moves each
    transmitted symbol by less than 1 on each axis, the receive path
    returns the message that was sent. *)
Theorem text_link_within_margin s message sent noisy :
  is_latin1 message = true →
  transmit s message = Some sent →
  within_margin sent noisy →
  receive s noisy = Some message.
Proof.
  intros Hlat Hsent Hclose. unfold transmit, receive in *.
  destruct (text_to_bits_latin1 message Hlat) as [Hlen Hbits].
  rewrite (demodulate_margin s (hamming_encode (text_to_bits message)) sent noisy)
    by (done || by apply is_bits_hamming_encode).
  assert (Henc : length (hamming_encode (text_to_bits message)) = (7 * (2 * length message))%nat)
    by (apply hamming_encode_length_groups; lia).
  unfold hamming_decode.
  rewrite (hamming_decode_run_blocks _ _ _ Henc), hamming_decode_run_encode.
  rewrite hamming_decode_run_short. 2:{
    rewrite length_replicate.
    pose proof (pad_len_lt (bits_per_symbol s)
                  (length (hamming_encode (text_to_bits message)))).
    destruct s; cbn [bits_per_symbol] in *; lia. }
  cbn [fst snd].
  replace (length (text_to_bits message)) with (4 * (2 * length message))%nat by lia.
  rewrite pad_len_multiple, !app_nil_r.
  by apply bits_to_text_to_bits.
Qed.

Lemma text_link_within_margin_witness :
  receive QPSK
    (ComplexSignal
       [Complex (1 # 2) (-(3 # 2)); Complex (-(3 # 2)) (3 # 4); Complex (1 # 4) (-(1 # 8));
        Complex (-(1 # 3)) (1 # 3); Complex (1 # 2) (7 # 4); Complex (-(15 # 8)) (-(7 # 4));
        Complex (-(1 # 10)) (-(13 # 8))]) = Some [72%N].
Proof.
  apply (text_link_within_margin QPSK [72%N]
           (ComplexSignal
              [Complex 1 (-1); Complex (-1) 1; Complex 1 (-1); Complex (-1) 1;
               Complex 1 1; Complex (-1) (-1); Complex (-1) (-1)])).
  - reflexivity.
  - reflexivity.
  - repeat constructor.
Defined.

Lemma text_roundtrip_latin1_witness :
  text_roundtrip [72%N; 105%N; 33%N] = Some [72%N; 105%N; 33%N].
Proof. apply (text_roundtrip_latin1 [72%N; 105%N; 33%N]). reflexivity. Defined.

End TextLink.

(** ** The float32 arithmetic of the audio path *)

Section Float32.

Lemma digits2_bounds p :
  2 ^ (Z.pos (digits2_pos p) - 1) ≤ Z.pos p < 2 ^ Z.pos (digits2_pos p).
Proof.
  induction p as [p IH|p IH|]; [| |by vm_compute]; cbn [digits2_pos];
    rewrite Pos2Z.inj_succ;
    replace (Z.succ (Z.pos (digits2_pos p)) - 1)
      with (Z.succ (Z.pos (digits2_pos p) - 1)) by lia;
    rewrite !Z.pow_succ_r by lia; lia.
Qed.

Lemma digits2_unique p n :
  2 ^ (n - 1) ≤ Z.pos p < 2 ^ n → Z.pos (digits2_pos p) = n.
Proof.
  intros [Hlo Hhi]. pose proof (digits2_bounds p) as [Hlo' Hhi'].
  assert (0 < n).
  { destruct (Z.lt_trichotomy n 0) as [?|[->|?]]; [|rewrite Z.pow_0_r in Hhi; lia|done].
    rewrite Z.pow_neg_r in Hhi; lia. }
  assert (n - 1 < Z.pos (digits2_pos p))
    by (apply (Z.pow_lt_mono_r_iff 2); lia).
  assert (Z.pos (digits2_pos p) - 1 < n)
    by (apply (Z.pow_lt_mono_r_iff 2); lia).
  lia.
Qed.

Lemma iter_xO p q : Z.pos (Pos.iter xO p q) = Z.pos p * 2 ^ Z.pos q.
Proof.
  induction q as [|q IH] using Pos.peano_ind.
  - cbn. lia.
  - rewrite Pos.iter_succ, Pos2Z.inj_xO, IH, Pos2Z.inj_succ, Z.pow_succ_r; lia.
Qed.

Lemma shr_1_m mrs : 0 ≤ shr_m mrs → shr_m (shr_1 mrs) = shr_m mrs / 2.
Proof.
  destruct mrs as [m r s]; cbn [shr_m]; intros Hm.
  destruct m as [|[p|p|]|]; cbn [shr_1 shr_m]; try done; try lia.
  - rewrite Pos2Z.inj_xI. Z.div_mod_to_equations. lia.
  - rewrite Pos2Z.inj_xO. Z.div_mod_to_equations. lia.
Qed.

Lemma shr_m_iter p : ∀ mrs,
  0 ≤ shr_m mrs → shr_m (SpecFloat.iter_pos shr_1 p mrs) = shr_m mrs / 2 ^ Z.pos p.
Proof.
  assert (Hnn : ∀ mrs, 0 ≤ shr_m mrs → 0 ≤ shr_m (shr_1 mrs)).
  { intros mrs H. rewrite shr_1_m by done. apply Z.div_pos; lia. }
  induction p as [p IH|p IH|]; intros mrs Hm; cbn [SpecFloat.iter_pos].
  - rewrite !IH, shr_1_m, !Z.div_div, Pos2Z.inj_xI by
      (try apply Z.pow_pos_nonneg; try rewrite IH; try apply Z.div_pos;
       try apply Z.pow_pos_nonneg; auto; lia).
    f_equal. replace (2 * Z.pos p + 1) with (Z.pos p + Z.pos p + 1) by lia.
    rewrite !Z.pow_add_r by lia. ring.
  - rewrite !IH, !Z.div_div by
      (try apply Z.pow_pos_nonneg; try rewrite IH; try apply Z.div_pos;
       try apply Z.pow_pos_nonneg; auto; lia).
    f_equal. replace (Z.pos p~0) with (Z.pos p + Z.pos p) by lia.
    rewrite !Z.pow_add_r by lia. ring.
  - by rewrite shr_1_m, Z.pow_1_r.
Qed.

Lemma fexp_24 d e : -149 ≤ d + e - 24 → fexp 24 128 (d + e) - e = d - 24.
Proof. unfold fexp, emin. lia. Qed.

Lemma shr_fexp_exact m e :
  Z.pos (digits2_pos m) ≤ 24 → -149 ≤ e →
  shr_fexp 24 128 (Z.pos m) e loc_Exact
  = ({| shr_m := Z.pos m; shr_r := false; shr_s := false |}, e).
Proof.
  intros Hd He. unfold shr_fexp. cbn [Zdigits2 shr_record_of_loc].
  assert (Hn : fexp 24 128 (Z.pos (digits2_pos m) + e) - e ≤ 0)
    by (unfold fexp, emin; lia).
  by destruct (fexp 24 128 (Z.pos (digits2_pos m) + e) - e); [| lia |].
Qed.

(** A mantissa of at most 24 digits is not rounded. *)
Lemma round_aux_exact s m e :
  Z.pos (digits2_pos m) ≤ 24 → -149 ≤ e ≤ 104 →
  binary_round_aux 24 128 s (Z.pos m) e loc_Exact = S754_finite s m e.
Proof.
  intros Hd He. unfold binary_round_aux.
  rewrite shr_fexp_exact by lia.
  cbn [shr_m loc_of_shr_record round_nearest_even].
  rewrite shr_fexp_exact by lia. cbn [shr_m].
  by replace (e <=? 128 - 24) with true by (symmetry; apply Z.leb_le; lia).
Qed.

(** A mantissa of [24 + p] digits loses its last [p] digits and may be
    rounded up by one. *)
Lemma round_aux_shift s m e p :
  Z.pos (digits2_pos m) = 24 + Z.pos p → -149 ≤ e + Z.pos p ≤ 104 →
  Z.pos m / 2 ^ Z.pos p + 1 < 2 ^ 24 →
  ∃ m', (Z.pos m' = Z.pos m / 2 ^ Z.pos p ∨
         Z.pos m' = Z.pos m / 2 ^ Z.pos p + 1) ∧
        binary_round_aux 24 128 s (Z.pos m) e loc_Exact
        = S754_finite s m' (e + Z.pos p).
Proof.
  intros Hd He Hlt. unfold binary_round_aux, shr_fexp at 1.
  cbn [Zdigits2 shr_record_of_loc]. rewrite Hd.
  rewrite fexp_24 by lia.
  replace (24 + Z.pos p - 24) with (Z.pos p) by lia. cbn [shr].
  set (mrs := SpecFloat.iter_pos shr_1 p _).
  assert (Hm : shr_m mrs = Z.pos m / 2 ^ Z.pos p)
    by (unfold mrs; by rewrite shr_m_iter).
  pose proof (digits2_bounds m) as [Hlo _]. rewrite Hd in Hlo.
  assert (2 ^ 23 ≤ Z.pos m / 2 ^ Z.pos p).
  { apply Z.div_le_lower_bound; [by apply Z.pow_pos_nonneg|].
    rewrite <- Z.pow_add_r by lia.
    by replace (Z.pos p + 23) with (24 + Z.pos p - 1) by lia. }
  set (r := round_nearest_even _ _).
  assert (Hr : r = Z.pos m / 2 ^ Z.pos p ∨ r = Z.pos m / 2 ^ Z.pos p + 1).
  { unfold r, round_nearest_even. rewrite Hm.
    destruct (loc_of_shr_record mrs) as [|[]]; auto.
    destruct (Z.even _); auto. }
  clearbody r. destruct r as [|m'|]; [lia| |lia].
  rewrite shr_fexp_exact by
    (try (apply Z.eq_le_incl, digits2_unique); lia).
  cbn [shr_m]. exists m'. split; [done|].
  by replace (e + Z.pos p <=? 128 - 24) with true
    by (symmetry; apply Z.leb_le; lia).
Qed.

(** An even mantissa of 25 digits loses its last digit and is not
    rounded. *)
Lemma round_aux_even s m e :
  Z.pos (digits2_pos m) = 24 → -149 ≤ e + 1 ≤ 104 →
  binary_round_aux 24 128 s (Z.pos m~0) e loc_Exact = S754_finite s m (e + 1).
Proof.
  intros Hd He. unfold binary_round_aux, shr_fexp at 1.
  cbn [Zdigits2 shr_record_of_loc digits2_pos]. rewrite Pos2Z.inj_succ, Hd.
  replace (Z.succ 24 + e) with (25 + e) by lia.
  rewrite fexp_24 by lia.
  change (25 - 24) with 1.
  cbn [shr SpecFloat.iter_pos shr_1 shr_m shr_r shr_s orb loc_of_shr_record
       round_nearest_even].
  rewrite shr_fexp_exact by lia. cbn [shr_m].
  by replace (e + 1 <=? 128 - 24) with true
    by (symmetry; apply Z.leb_le; lia).
Qed.

(** An integer of fewer than 24 digits as a float32: its digits moved
    up into a mantissa of 24 digits. *)
Lemma of_Z_finite (s : bool) (p : positive) :
  Z.pos (digits2_pos p) < 24 →
  ∃ m, Z.pos m = Z.pos p * 2 ^ (24 - Z.pos (digits2_pos p)) ∧
       Z.pos (digits2_pos m) = 24 ∧
       F32.of_Z (if s then Z.neg p else Z.pos p)
       = S754_finite s m (Z.pos (digits2_pos p) - 24).
Proof.
  intros Hd. set (d := Z.pos (digits2_pos p)) in *.
  destruct (24 - d) as [|q|] eqn:Hq; [lia| |lia].
  assert (Hm : Z.pos (Pos.iter xO p q) = Z.pos p * 2 ^ Z.pos q)
    by apply iter_xO.
  assert (Hdm : Z.pos (digits2_pos (Pos.iter xO p q)) = 24).
  { apply digits2_unique. rewrite Hm.
    pose proof (digits2_bounds p) as [Hlo Hhi]. fold d in Hlo, Hhi.
    assert (0 < 2 ^ Z.pos q) by (by apply Z.pow_pos_nonneg).
    assert (2 ^ (24 - 1) = 2 ^ (d - 1) * 2 ^ Z.pos q) as ->
      by (rewrite <- Z.pow_add_r by lia; f_equal; lia).
    assert (2 ^ 24 = 2 ^ d * 2 ^ Z.pos q) as ->
      by (rewrite <- Z.pow_add_r by lia; f_equal; lia).
    split; [apply Z.mul_le_mono_nonneg_r|apply Z.mul_lt_mono_pos_r]; lia. }
  exists (Pos.iter xO p q). split_and!; [done..|].
  assert (Hround : binary_round 24 128 s p 0
                   = S754_finite s (Pos.iter xO p q) (d - 24)).
  { unfold binary_round. fold d.
    replace (fexp 24 128 (d + 0)) with (Z.neg q) by (unfold fexp, emin; lia).
    unfold shl_align. change (Z.neg q - 0) with (Z.neg q). cbv beta iota.
    change (PosDef.Pos.iter xO p q) with (Pos.iter xO p q).
    rewrite round_aux_exact by lia. f_equal. lia. }
  by destruct s.
Qed.

Lemma div_core_32768 m e :
  Z.pos (digits2_pos m) = 24 → -100 ≤ e ≤ 100 →
  SFdiv_core_binary 24 128 (Z.pos m) e 8388608 (-8)
  = (Z.pos m~0, e - 16, loc_Exact).
Proof.
  intros Hd He. unfold SFdiv_core_binary. cbn [Zdigits2]. rewrite Hd.
  change (Z.pos (digits2_pos 8388608)) with 24.
  replace (Z.min (fexp 24 128 (24 + e - (24 + -8))) (e - -8)) with (e - 16)
    by (unfold fexp, emin; lia).
  replace (e - -8 - (e - 16)) with 24 by lia.
  cbv beta iota zeta.
  pose proof (Z_div_mod (Z.shiftl (Z.pos m) 24) 8388608 ltac:(done)) as Hdiv.
  destruct (Z.div_eucl _ _) as [q r].
  rewrite Z.shiftl_mul_pow2 in Hdiv by done.
  change (2 ^ 24) with 16777216 in Hdiv.
  assert (r = 0) as -> by lia. assert (q = Z.pos m~0) as -> by lia. done.
Qed.

(** A sample of a 16-bit wav file as [main] and [bits_to_audio] make it: the
    division by 32768 only lowers the exponent. *)
Lemma wav_normalise_finite (s : bool) (p : positive) :
  Z.pos (digits2_pos p) ≤ 16 →
  ∃ m, Z.pos m = Z.pos p * 2 ^ (24 - Z.pos (digits2_pos p)) ∧
       wav_normalise (if s then Z.neg p else Z.pos p)
       = S754_finite s m (Z.pos (digits2_pos p) - 39).
Proof.
  intros Hd. destruct (of_Z_finite s p) as (m & Hm & Hdm & Hof); [lia|].
  exists m. split; [done|]. unfold wav_normalise. rewrite Hof.
  change (F32.of_Z 32768) with (S754_finite false 8388608 (-8)).
  unfold F32.div, SFdiv, F32.prec, F32.emax.
  rewrite div_core_32768 by lia.
  rewrite round_aux_even by lia.
  rewrite xorb_false_r. f_equal. lia.
Qed.

Lemma clip_small s m e :
  e < -23 →
  F32.clip (S754_finite s m e) (F32.of_Z (-1)) (F32.of_Z 1)
  = S754_finite s m e.
Proof.
  intros He.
  change (F32.of_Z (-1)) with (S754_finite true 8388608 (-23)).
  change (F32.of_Z 1) with (S754_finite false 8388608 (-23)).
  unfold F32.clip, SFltb, SFcompare.
  rewrite (proj2 (Z.compare_lt_iff e (-23)) He).
  rewrite (proj2 (Z.compare_gt_iff (-23) e) He).
  by destruct s.
Qed.

Lemma in_unit_small s m e :
  e < -23 → F32.in_unit (S754_finite s m e) = true.
Proof.
  intros He. unfold F32.in_unit.
  change (F32.of_Z (-1)) with (S754_finite true 8388608 (-23)).
  change (F32.of_Z 1) with (S754_finite false 8388608 (-23)).
  unfold SFleb, SFltb, SFcompare.
  rewrite (proj2 (Z.compare_lt_iff e (-23)) He).
  rewrite (proj2 (Z.compare_gt_iff (-23) e) He).
  by destruct s.
Qed.

(** Evaluates the closed powers of two of the goal and the context. *)
Ltac pow_consts :=
  repeat match goal with
  | |- context [2 ^ ?n] =>
      let v := eval vm_compute in (2 ^ n) in progress change (2 ^ n) with v
  | H : context [2 ^ ?n] |- _ =>
      let v := eval vm_compute in (2 ^ n) in
      progress change (2 ^ n) with v in H
  end.

(** The product with 32767 of a sample of [d] digits that is no power of
    two has 48 digits; rounded to 24 and truncated, it is one less than
    the sample. *)
Lemma scale_sample_finite s m k d :
  1 ≤ d ≤ 15 → 2 ^ (d - 1) < k < 2 ^ d → Z.pos m = k * 2 ^ (24 - d) →
  scale_sample (S754_finite s m (d - 39))
  = Some (if s then - (k - 1) else k - 1).
Proof.
  intros Hd Hk Hm. unfold scale_sample. rewrite clip_small by lia.
  change (F32.of_Z 32767) with (S754_finite false 16776704 (-9)).
  unfold F32.mul, SFmul, F32.prec, F32.emax. rewrite xorb_false_r.
  assert (Hcases : In d [1; 2; 3; 4; 5; 6; 7; 8; 9; 10; 11; 12; 13; 14; 15])
    by (cbn; lia).
  cbn in Hcases.
  repeat (destruct Hcases as [<-|Hcases]); [..|done];
    pow_consts;
    (match goal with
     | |- context [binary_round_aux _ _ _ _ ?e _] =>
         destruct (round_aux_shift s (m * 16776704) e 24) as (m' & Hm' & ->)
     end;
     [ apply digits2_unique; pow_consts; rewrite Pos2Z.inj_mul, Hm; lia
     | lia
     | pow_consts; rewrite Pos2Z.inj_mul, Hm; Z.div_mod_to_equations; lia
     | ]);
    pow_consts; rewrite Pos2Z.inj_mul, Hm in Hm';
    unfold F32.trunc;
    match goal with
    | |- context [0 <=? ?e] =>
        let v := eval vm_compute in (0 <=? e) in change (0 <=? e) with v
    end; cbv beta iota zeta;
    match goal with
    | |- context [2 ^ ?n] =>
        let v := eval vm_compute in (2 ^ n) in change (2 ^ n) with v
    end;
    f_equal; destruct s, Hm' as [Hm'|Hm']; rewrite Hm';
    Z.div_mod_to_equations; lia.
Qed.

Lemma digits2_int16 p : Z.pos p < 32768 → 1 ≤ Z.pos (digits2_pos p) ≤ 15.
Proof.
  intros Hp. pose proof (digits2_bounds p) as [Hlo _].
  assert (Z.pos (digits2_pos p) - 1 < 15)
    by (apply (Z.pow_lt_mono_r_iff 2); [lia..|]; by change (2 ^ 15) with 32768; lia).
  lia.
Qed.

Lemma scale_sample_signed (s : bool) (p : positive) :
  Z.pos p < 32768 →
  scale_sample (wav_normalise (if s then Z.neg p else Z.pos p))
  = Some (if s then - (Z.pos p - 1) else Z.pos p - 1) ∧
  F32.in_unit (wav_normalise (if s then Z.neg p else Z.pos p)) = true.
Proof.
  intros Hp. pose proof (digits2_int16 p Hp) as Hd.
  pose proof (digits2_bounds p) as [Hlo Hhi].
  destruct (wav_normalise_finite s p) as (m & Hm & ->); [lia|].
  split; [|apply in_unit_small; lia].
  set (d := Z.pos (digits2_pos p)) in *.
  destruct (Z.eq_dec (Z.pos p) (2 ^ (d - 1))) as [Hpow|Hne];
    [|apply scale_sample_finite; [done|lia|done]].
  rewrite Hpow in *. clearbody d.
  assert (Hcases : In d [1; 2; 3; 4; 5; 6; 7; 8; 9; 10; 11; 12; 13; 14; 15])
    by (cbn; lia).
  cbn in Hcases.
  repeat (destruct Hcases as [<-|Hcases]); [..|done];
    pow_consts; (assert (m = 8388608%positive) as -> by lia);
    by destruct s; vm_compute.
Qed.

(** One sample of a 16-bit wav file through [audio_to_bits]. *)
Lemma scale_sample_wav k :
  is_int16 k = true →
  scale_sample (wav_normalise k) = Some (k - Z.sgn k) ∧
  F32.in_unit (wav_normalise k) = true.
Proof.
  unfold is_int16. intros [Hlo%Z.leb_le Hhi%Z.leb_le]%andb_prop.
  destruct k as [|p|p].
  - by vm_compute.
  - destruct (scale_sample_signed false p) as [-> ->]; [lia|]. by cbn [Z.sgn].
  - destruct (Z.eq_dec (Z.neg p) (-32768)) as [->|Hne]; [by vm_compute|].
    destruct (scale_sample_signed true p) as [-> ->]; [lia|].
    split; [f_equal; cbn [Z.sgn]; lia|done].
Qed.

End Float32.

(** ** Audio codec *)

Section Audio.
Import Py PyFacts.

Lemma all_from_spec n : ∀ k f j,
  all_from n k f = true → k ≤ j < k + Z.of_nat n → f j = true.
Proof.
  induction n as [|n IH]; intros k f j Hall Hj; [lia|].
  cbn [all_from] in Hall. apply andb_prop in Hall as [Hk Hrest].
  destruct (Z.eq_dec j k) as [-> | Hne]; [done|].
  apply (IH (k + 1)); [done|lia].
Qed.

Lemma bytes_ok : all_from 256 0 byte_ok = true.
Proof. by vm_compute. Qed.

Lemma byte_bits_back b :
  0 ≤ b ≤ 255 →
  length (byte_bits b) = 8%nat ∧ is_bits (byte_bits b) = true ∧
  pack_byte (byte_bits b) = b.
Proof.
  intros Hb.
  pose proof (all_from_spec _ _ _ b bytes_ok ltac:(lia)) as Hok.
  unfold byte_ok in Hok.
  by apply andb_prop in Hok as [[?%Nat.eqb_eq ?]%andb_prop ?%Z.eqb_eq].
Qed.

(** The two bytes of an int16 are bytes and hold it. *)
Lemma int16_bytes_back order k :
  is_int16 k = true →
  ∃ b0 b1, int16_bytes order k = [b0; b1] ∧ 0 ≤ b0 ≤ 255 ∧ 0 ≤ b1 ≤ 255 ∧
           int16_of_bytes order [b0; b1] = k.
Proof.
  unfold is_int16. intros [?%Z.leb_le ?%Z.leb_le]%andb_prop.
  unfold int16_bytes, int16_of_bytes. cbv zeta.
  destruct order; eexists _, _; (split; [reflexivity|]);
    match goal with |- context [?u <? 32768] => destruct (Z.ltb_spec u 32768) end;
    Z.div_mod_to_equations; lia.
Qed.

Lemma int16_bits_back order k :
  is_int16 k = true →
  length (unpackbits (int16_bytes order k)) = 16%nat ∧
  is_bits (unpackbits (int16_bytes order k)) = true ∧
  map (int16_of_bytes order ∘ map pack_byte ∘ chunks 8)
      [unpackbits (int16_bytes order k)] = [k].
Proof.
  intros Hk.
  destruct (int16_bytes_back order k Hk) as (b0 & b1 & -> & H0 & H1 & Hback).
  destruct (byte_bits_back b0 H0) as (Hl0 & Hb0 & Hp0).
  destruct (byte_bits_back b1 H1) as (Hl1 & Hb1 & Hp1).
  unfold unpackbits. cbn [flat_map]. rewrite app_nil_r.
  split; [rewrite length_app; lia|]. split.
  { unfold is_bits in *. by rewrite forallb_app, Hb0, Hb1. }
  cbn [map compose]. rewrite chunks_app by (done || lia).
  rewrite chunks_short by lia. cbn [map]. by rewrite Hp0, Hp1, Hback.
Qed.

Lemma chunks_blocks {A} k m : ∀ (l t : list A),
  (0 < k)%nat → length l = (k * m)%nat →
  chunks k (l ++ t) = chunks k l ++ chunks k t ∧
  length (chunks k l) = m ∧
  Forall (λ c, length c = k) (chunks k l).
Proof.
  induction m as [|m IH]; intros l t Hk Hl.
  - replace (k * 0)%nat with 0%nat in Hl by lia.
    destruct l; [|done]. by rewrite chunks_nil.
  - rewrite <- (take_drop k l).
    assert (Hb : length (take k l) = k) by (rewrite length_take; lia).
    destruct (IH (drop k l) t Hk) as (IH1 & IH2 & IH3); [rewrite length_drop; lia|].
    rewrite <- app_assoc, (chunks_app k (take k l)), (chunks_app k (take k l) (drop k l))
      by done.
    rewrite IH1. cbn [app length]. rewrite IH2.
    split; [done|]. split; [done|]. by constructor.
Qed.

Lemma pack_byte_range group :
  length group = 8%nat → 0 ≤ pack_byte group ≤ 255.
Proof.
  intros Hlen. open_list group Hlen. unfold pack_byte.
  cbn [length Nat.sub replicate app fold_left].
  repeat match goal with
         | |- context [?b =? 0] => destruct (b =? 0)
         end; lia.
Qed.

Lemma packbits_range m : ∀ bits,
  length bits = (8 * m)%nat →
  length (packbits bits) = m ∧ Forall (λ b, 0 ≤ b ≤ 255) (packbits bits).
Proof.
  intros bits Hlen. unfold packbits.
  destruct (chunks_blocks 8 m bits [] ltac:(lia) Hlen) as (_ & Hm & Hall).
  rewrite length_map. split; [done|].
  apply Forall_fmap. eapply Forall_impl; [exact Hall|].
  intros group Hg. by apply pack_byte_range.
Qed.

Lemma int16_of_bytes_range order b0 b1 :
  0 ≤ b0 ≤ 255 → 0 ≤ b1 ≤ 255 → is_int16 (int16_of_bytes order [b0; b1]) = true.
Proof.
  intros H0 H1. unfold is_int16, int16_of_bytes.
  destruct order; cbv zeta;
    match goal with |- context [?u <? 32768] => destruct (Z.ltb_spec u 32768) end;
    apply andb_true_intro; split; apply Z.leb_le; lia.
Qed.

Lemma int16_values_range order q : ∀ bytes,
  length bytes = (2 * q)%nat → Forall (λ b, 0 ≤ b ≤ 255) bytes →
  length (map (int16_of_bytes order) (chunks 2 bytes)) = q ∧
  Forall (λ k, is_int16 k = true) (map (int16_of_bytes order) (chunks 2 bytes)).
Proof.
  induction q as [|q IH]; intros bytes Hlen Hall.
  - destruct bytes; [|simpl in Hlen; lia]. by rewrite chunks_nil.
  - destruct bytes as [|b0 [|b1 rest]]; [simpl in Hlen; lia..|].
    change (b0 :: b1 :: rest) with ([b0; b1] ++ rest).
    rewrite chunks_app by (done || lia). cbn [map length].
    apply Forall_cons in Hall as [H0 Hall]. apply Forall_cons in Hall as [H1 Hall].
    destruct (IH rest) as [IH1 IH2]; [simpl in Hlen; lia|done|].
    split; [by rewrite IH1|]. constructor; [by apply int16_of_bytes_range|done].
Qed.

(** [bits_to_audio] reads the first [8 * floor(n / 8)] entries. *)
Lemma bits_to_audio_take order bits sample_rate :
  bits_to_audio order bits sample_rate =
  (audio ← frombuffer_int16 order (packbits (take (8 * (length bits / 8)) bits));
   Some (map wav_normalise audio, sample_rate)).
Proof.
  unfold bits_to_audio.
  pose proof (Nat.div_mod_eq (length bits) 8) as Hn.
  destruct (Nat.eqb_spec (length bits mod 8) 0) as [H0 | H0]; cbn [negb].
  - rewrite take_ge by lia. done.
  - unfold slice. rewrite drop_0.
    by replace (length bits - length bits mod 8 - 0)%nat
      with (8 * (length bits / 8))%nat by lia.
Qed.

Lemma bits_to_audio_values order bits sample_rate :
  if (length bits / 8 mod 2 =? 0)%nat
  then ∃ ks,
         bits_to_audio order bits sample_rate
         = Some (map wav_normalise ks, sample_rate) ∧
         length ks = (length bits / 16)%nat ∧
         Forall (λ k, is_int16 k = true) ks
  else bits_to_audio order bits sample_rate = None.
Proof.
  rewrite bits_to_audio_take.
  pose proof (Nat.div_mod_eq (length bits) 8) as Hn.
  destruct (packbits_range (length bits / 8) (take (8 * (length bits / 8)) bits))
    as [Hlen Hbytes]; [rewrite length_take; lia|].
  unfold frombuffer_int16. rewrite Hlen.
  destruct (Nat.eqb_spec (length bits / 8 mod 2) 0) as [H0 | H0]; cbn [negb]; [|done].
  apply Nat.Div0.div_exact in H0.
  destruct (int16_values_range order (length bits / 8 / 2) _ (eq_trans Hlen H0) Hbytes)
    as [Hq Hall].
  eexists. split; [reflexivity|]. rewrite Hq. split; [|done].
  by rewrite Nat.Div0.div_div.
Qed.

(** X18. [bits_to_audio] raises the [ValueError] of [np.frombuffer] when the
    bits make an odd number of whole bytes. Otherwise it returns the sample
    rate it was given and one sample for every 16 bits, each of them at
    least -1 and below 1. *)
Theorem bits_to_audio_result order bits sample_rate :
  if (length bits / 8 mod 2 =? 0)%nat
  then ∃ audio,
         bits_to_audio order bits sample_rate = Some (audio, sample_rate) ∧
         length audio = (length bits / 16)%nat ∧
         Forall (λ x, F32.in_unit x = true) audio
  else bits_to_audio order bits sample_rate = None.
Proof.
  rewrite bits_to_audio_take.
  pose proof (Nat.div_mod_eq (length bits) 8) as Hn.
  destruct (packbits_range (length bits / 8) (take (8 * (length bits / 8)) bits))
    as [Hlen Hbytes]; [rewrite length_take; lia|].
  unfold frombuffer_int16. rewrite Hlen.
  destruct (Nat.eqb_spec (length bits / 8 mod 2) 0) as [H0 | H0]; cbn [negb]; [|done].
  apply Nat.Div0.div_exact in H0.
  destruct (int16_values_range order (length bits / 8 / 2) _ (eq_trans Hlen H0) Hbytes)
    as [Hq Hall].
  eexists. split; [reflexivity|]. rewrite length_map, Hq. split.
  - by rewrite Nat.Div0.div_div.
  - apply Forall_fmap. eapply Forall_impl; [exact Hall|].
    intros k Hk. by apply scale_sample_wav.
Qed.

Lemma mapM_scale_wav ks :
  Forall (λ k, is_int16 k = true) ks →
  mapM scale_sample (map wav_normalise ks) = Some (map (λ k, k - Z.sgn k) ks).
Proof.
  induction 1 as [|k ks Hk Hks IH]; [done|]. cbn [map mapM].
  destruct (scale_sample_wav k Hk) as [-> _]. by rewrite IH.
Qed.

Lemma is_int16_shrink k : is_int16 k = true → is_int16 (k - Z.sgn k) = true.
Proof.
  unfold is_int16. intros [?%Z.leb_le ?%Z.leb_le]%andb_prop.
  apply andb_true_intro. split; apply Z.leb_le; lia.
Qed.

Lemma sample_bits_back order ks :
  Forall (λ k, is_int16 k = true) ks →
  let bits := unpackbits (flat_map (int16_bytes order) ks) in
  length bits = (16 * length ks)%nat ∧ is_bits bits = true ∧
  packbits bits = flat_map (λ k, map pack_byte (chunks 8 (unpackbits (int16_bytes order k)))) ks ∧
  length (packbits bits) = (2 * length ks)%nat ∧
  map (int16_of_bytes order) (chunks 2 (packbits bits)) = ks.
Proof.
  cbv zeta. induction 1 as [|k ks Hk Hks (IH1 & IH2 & IH3 & IH4 & IH5)]; [done|].
  destruct (int16_bits_back order k Hk) as (Hlen & Hbits & Hback).
  cbn [flat_map].
  replace (unpackbits (int16_bytes order k ++ flat_map (int16_bytes order) ks))
    with (unpackbits (int16_bytes order k) ++ unpackbits (flat_map (int16_bytes order) ks))
    by (unfold unpackbits; by rewrite flat_map_app).
  set (sb := unpackbits (int16_bytes order k)) in *.
  set (rest := unpackbits (flat_map (int16_bytes order) ks)) in *.
  assert (Hpack : packbits (sb ++ rest) = map pack_byte (chunks 8 sb) ++ packbits rest).
  { unfold packbits.
    destruct (chunks_blocks 8 2 sb rest ltac:(lia) Hlen) as (-> & _ & _).
    by rewrite map_app. }
  assert (H2 : length (map pack_byte (chunks 8 sb)) = 2%nat).
  { destruct (chunks_blocks 8 2 sb [] ltac:(lia) Hlen) as (_ & H2 & _).
    by rewrite length_map. }
  rewrite Hpack, length_app, Hlen, IH1, length_app, H2, IH4.
  split; [cbn [length]; lia|]. split.
  { unfold is_bits in *. by rewrite forallb_app, Hbits, IH2. }
  split; [by rewrite IH3|]. split; [cbn [length]; lia|].
  destruct (chunks_blocks 2 1 (map pack_byte (chunks 8 sb)) (packbits rest)
              ltac:(lia) H2) as (-> & _ & _).
  rewrite map_app, IH5.
  rewrite chunks_short by lia. cbn [map compose] in Hback |- *.
  by rewrite Hback.
Qed.

Lemma audio_roundtrip_shrinks_aux order ks sample_rate :
  Forall (λ k, is_int16 k = true) ks →
  ∃ bits,
    audio_to_bits order (map wav_normalise ks) = Some bits ∧
    length bits = (16 * length ks)%nat ∧
    is_bits bits = true ∧
    bits_to_audio order bits sample_rate =
      Some (map (λ k, wav_normalise (k - Z.sgn k)) ks, sample_rate).
Proof.
  intros Hks. unfold audio_to_bits. rewrite mapM_scale_wav by done. cbn.
  assert (Hks' : Forall (λ k, is_int16 k = true) (map (λ k, k - Z.sgn k) ks)).
  { apply Forall_fmap. eapply Forall_impl; [exact Hks|]. apply is_int16_shrink. }
  destruct (sample_bits_back order _ Hks') as (Hlen & Hbits & _ & Hbytes & Hback).
  rewrite length_map in Hlen, Hbytes.
  eexists. split; [reflexivity|]. split; [done|]. split; [done|].
  rewrite bits_to_audio_take, Hlen.
  replace (16 * length ks / 8)%nat with (2 * length ks)%nat
    by (replace (16 * length ks)%nat with (2 * length ks * 8)%nat by lia;
        by rewrite Nat.div_mul).
  rewrite take_ge by lia.
  unfold frombuffer_int16. rewrite Hbytes.
  replace (2 * length ks)%nat with (length ks * 2)%nat by lia.
  rewrite Nat.Div0.mod_mul. cbn [Nat.eqb negb]. cbn.
  by rewrite Hback, map_map.
Qed.

(** X19. The audio path with a clean channel is not the identity: for the
    samples [main] reads from a 16-bit wav file, [audio_to_bits] returns 16
    bits for each sample, and [bits_to_audio] gives back every nonzero
    sample one step of 1/32768 nearer to zero. *)
Theorem audio_roundtrip_shrinks order ks sample_rate :
  Forall (λ k, is_int16 k = true) ks →
  ∃ bits,
    audio_to_bits order (map wav_normalise ks) = Some bits ∧
    length bits = (16 * length ks)%nat ∧
    is_bits bits = true ∧
    bits_to_audio order bits sample_rate =
      Some (map (λ k, wav_normalise (k - Z.sgn k)) ks, sample_rate).
Proof. apply audio_roundtrip_shrinks_aux. Qed.

Lemma audio_roundtrip_shrinks_witness :
  ∃ bits,
    audio_to_bits LittleEndian (map wav_normalise [258; -2; 0]) = Some bits ∧
    length bits = 48%nat ∧
    is_bits bits = true ∧
    bits_to_audio LittleEndian bits 44100 =
      Some (map (λ k, wav_normalise (k - Z.sgn k)) [258; -2; 0], 44100).
Proof.
  apply (audio_roundtrip_shrinks LittleEndian [258; -2; 0] 44100).
  repeat constructor.
Defined.

End Audio.

(** ** The audio link *)

Section AudioLink.
Import Py PyFacts.

(** Bits in whole 4-bit groups cross the coder, the modulator and a channel
    within the margin unchanged. *)
Lemma link_bits s m bits sent noisy :
  is_bits bits = true → length bits = (4 * m)%nat →
  modulate s (hamming_encode bits) = Some sent →
  within_margin sent noisy →
  hamming_decode (demodulate s noisy) = bits.
Proof.
  intros Hbits Hlen Hsent Hclose.
  rewrite (demodulate_margin s (hamming_encode bits) sent noisy)
    by (done || by apply is_bits_hamming_encode).
  pose proof (hamming_encode_length_groups m bits Hlen) as Henc.
  unfold hamming_decode.
  rewrite (hamming_decode_run_blocks _ _ _ Henc), hamming_decode_run_encode.
  rewrite hamming_decode_run_short. 2:{
    rewrite length_replicate.
    pose proof (pad_len_lt (bits_per_symbol s) (length (hamming_encode bits))).
    destruct s; cbn [bits_per_symbol] in *; lia. }
  cbn [fst snd]. by rewrite Hlen, pad_len_multiple, !app_nil_r.
Qed.

Lemma audio_link_aux order s ks sent noisy sample_rate :
  Forall (λ k, is_int16 k = true) ks →
  transmit_audio order s (map wav_normalise ks) = Some sent →
  within_margin sent noisy →
  receive_audio order s noisy sample_rate =
    Some (map (λ k, wav_normalise (k - Z.sgn k)) ks, sample_rate).
Proof.
  intros Hks Hsent Hclose. unfold transmit_audio, receive_audio in *.
  destruct (audio_roundtrip_shrinks_aux order ks sample_rate Hks)
    as (bits & Hbits & Hlen & Hisbits & Hback).
  rewrite Hbits in Hsent. cbn in Hsent.
  by rewrite (link_bits s (4 * length ks) bits sent noisy) by (done || lia).
Qed.

(** X20. The audio link of [main]: for the samples of a 16-bit wav file and
    every scheme, if the channel moves each transmitted symbol by less
    than 1 on each axis, the receive path returns the sample rate and the
    samples, each nonzero one a step of 1/32768 nearer to zero. *)
Theorem audio_link_within_margin order s ks sent noisy sample_rate :
  Forall (λ k, is_int16 k = true) ks →
  transmit_audio order s (map wav_normalise ks) = Some sent →
  within_margin sent noisy →
  receive_audio order s noisy sample_rate =
    Some (map (λ k, wav_normalise (k - Z.sgn k)) ks, sample_rate).
Proof. apply audio_link_aux. Qed.

Lemma audio_link_within_margin_witness :
  receive_audio LittleEndian QAM16
    (ComplexSignal
       [Complex (-(5 # 2)) (-(7 # 2)); Complex (-(13 # 4)) (-(1 # 2));
        Complex (7 # 2) (11 # 4); Complex (-(1 # 4)) (-(5 # 2));
        Complex (-(7 # 2)) (-(9 # 4)); Complex (-(7 # 2)) (-(13 # 4));
        Complex (-(11 # 4)) (-(10 # 3))]) 8000 =
    Some (map (λ k, wav_normalise (k - Z.sgn k)) [2], 8000).
Proof.
  apply (audio_link_within_margin LittleEndian QAM16 [2]
           (ComplexSignal
              [Complex (-3) (-3); Complex (-3) (-1); Complex 3 3;
               Complex (-1) (-3); Complex (-3) (-3); Complex (-3) (-3);
               Complex (-3) (-3)])).
  - repeat constructor.
  - reflexivity.
  - repeat constructor.
Defined.

End AudioLink.

(** ** The audio output *)

Section AudioOutput.
Import Py PyFacts.

(** X21. The audio branch of [main], whatever bits were decoded: an error
    when they make an odd number of whole bytes, a warning and no file when
    they are fewer than 16, otherwise a file with the sample rate, one
    sample for every 16 bits and no sample outside -32767..32767. *)
Theorem save_audio_result order decoded sample_rate :
  if negb (length decoded / 8 mod 2 =? 0)%nat
  then save_audio order decoded sample_rate = Some AudioError
  else if (length decoded <? 16)%nat
  then save_audio order decoded sample_rate = Some AudioEmpty
  else ∃ samples,
         save_audio order decoded sample_rate
         = Some (AudioSaved sample_rate samples) ∧
         length samples = (length decoded / 16)%nat ∧
         Forall (λ k, -32767 ≤ k ≤ 32767) samples.
Proof.
  pose proof (bits_to_audio_values order decoded sample_rate) as H.
  unfold save_audio.
  destruct (length decoded / 8 mod 2 =? 0)%nat; cbn [negb]; [|by rewrite H].
  destruct H as (ks & -> & Hlen & Hks).
  destruct (Nat.ltb_spec (length decoded) 16) as [Hlt | Hge].
  - rewrite Nat.div_small in Hlen by done. by destruct ks.
  - assert (1 ≤ length decoded / 16)%nat
      by (apply Nat.div_le_lower_bound; lia).
    destruct ks as [|k ks]; [cbn [length] in Hlen; lia|].
    change (map wav_normalise (k :: ks))
      with (wav_normalise k :: map wav_normalise ks) at 1.
    cbv beta iota.
    change (wav_normalise k :: map wav_normalise ks)
      with (map wav_normalise (k :: ks)).
    rewrite mapM_scale_wav by done. cbn [mbind option_bind].
    eexists. split; [reflexivity|]. rewrite length_map. split; [done|].
    apply Forall_fmap. eapply Forall_impl; [exact Hks|].
    intros k'. unfold is_int16, compose.
    intros [?%Z.leb_le ?%Z.leb_le]%andb_prop. cbv beta.
    destruct (Z.sgn_spec k') as [[? ->]|[[? ->]|[? ->]]]; lia.
Qed.

(** X22. From file to file: for the samples of a 16-bit wav file, not
    empty, and every scheme, if the channel moves each transmitted symbol
    by less than 1 on each axis, [main] writes a file with the sample rate
    and every sample two steps nearer to zero, or zero. *)
Theorem audio_saved_within_margin order s ks sent noisy sample_rate :
  Forall (λ k, is_int16 k = true) ks → ks ≠ [] →
  transmit_audio order s (map wav_normalise ks) = Some sent →
  within_margin sent noisy →
  save_audio order (hamming_decode (demodulate s noisy)) sample_rate
  = Some (AudioSaved sample_rate
            (map (λ k, k - Z.sgn k - Z.sgn (k - Z.sgn k)) ks)).
Proof.
  intros Hks Hne Hsent Hclose.
  pose proof (audio_link_aux order s ks sent noisy sample_rate Hks Hsent Hclose)
    as Hback.
  unfold receive_audio in Hback. unfold save_audio. rewrite Hback.
  assert (Hks' : Forall (λ k, is_int16 k = true) (map (λ k, k - Z.sgn k) ks)).
  { apply Forall_fmap. eapply Forall_impl; [exact Hks|]. apply is_int16_shrink. }
  pose proof (mapM_scale_wav _ Hks') as Hwritten.
  rewrite !map_map in Hwritten.
  destruct ks as [|k ks]; [done|].
  cbn [map] in Hwritten |- *. by rewrite Hwritten.
Qed.

Lemma audio_saved_within_margin_witness :
  save_audio LittleEndian
    (hamming_decode
       (demodulate QAM16
          (ComplexSignal
             [Complex (-(5 # 2)) (-(7 # 2)); Complex (-(13 # 4)) (-(1 # 2));
              Complex (7 # 2) (11 # 4); Complex (-(1 # 4)) (-(5 # 2));
              Complex (-(7 # 2)) (-(9 # 4)); Complex (-(7 # 2)) (-(13 # 4));
              Complex (-(11 # 4)) (-(10 # 3))]))) 8000
  = Some (AudioSaved 8000 (map (λ k, k - Z.sgn k - Z.sgn (k - Z.sgn k)) [2])).
Proof.
  apply (audio_saved_within_margin LittleEndian QAM16 [2]
           (ComplexSignal
              [Complex (-3) (-3); Complex (-3) (-1); Complex 3 3;
               Complex (-1) (-3); Complex (-3) (-3); Complex (-3) (-3);
               Complex (-3) (-3)])).
  - repeat constructor.
  - done.
  - reflexivity.
  - repeat constructor.
Defined.

(** X23. [audio_to_bits] saturates: a sample above 1.0, [+inf] included,
    is stored as 32767, and one below -1.0, [-inf] included, as -32767. *)
Theorem scale_sample_saturates x :
  SFltb (F32.of_Z 1) x = true ∨ SFltb x (F32.of_Z (-1)) = true →
  scale_sample x = Some (if SFltb (F32.of_Z 1) x then 32767 else -32767).
Proof.
  change (F32.of_Z 1) with (S754_finite false 8388608 (-23)).
  change (F32.of_Z (-1)) with (S754_finite true 8388608 (-23)).
  unfold scale_sample, F32.clip.
  change (F32.of_Z 1) with (S754_finite false 8388608 (-23)).
  change (F32.of_Z (-1)) with (S754_finite true 8388608 (-23)).
  intros [H | H].
  - rewrite H.
    destruct x as [[]|[]| |[] m e]; try discriminate H;
      try (change (SFltb (S754_finite false m e)
                     (S754_finite true 8388608 (-23))) with false;
           rewrite H);
      by vm_compute.
  - rewrite H.
    destruct x as [[]|[]| |[] m e]; try discriminate H; by vm_compute.
Qed.

Lemma scale_sample_saturates_witness :
  scale_sample (S754_infinity false)
  = Some (if SFltb (F32.of_Z 1) (S754_infinity false) then 32767 else -32767).
Proof.
  apply (scale_sample_saturates (S754_infinity false)).
  left. reflexivity.
Defined.

End AudioOutput.
